(** * Scorer.h (MERT scorer base class) -- a shallow embedding

    The header [src/mert/Scorer.h] declares the abstract class [Scorer] and two
    free regularisation helpers, [score_min] and [score_average].  This file
    embeds the code that the header defines inline, with

    - C++ exceptions and undefined behaviour made explicit in an [outcome]
      monad;
    - [std::size_t] as a 64-bit unsigned integer carried in [Z], wrap-around
      written out;
    - [float] as IEEE-754 binary32, computed by the Standard Library's
      executable specification [SpecFloat] at precision 24 and [emax = 128]
      (round to nearest, ties to even);
    - [std::map<std::string,std::string>] as a [gmap string string];
    - raw pointers as optional addresses into an explicit heap. *)

From Stdlib Require Import ZArith Lia Bool Ascii String.
From Stdlib Require Import Floats.SpecFloat.
From stdpp Require Import base option list strings gmap.

Local Open Scope Z_scope.

(** ** Outcomes of a C++ call *)

(** The only exception class the header names is [std::runtime_error]. *)
Inductive exception : Type :=
| runtime_error (what : string).

(** A call returns, throws, or has undefined behaviour. *)
Inductive outcome (A : Type) : Type :=
| Ok (a : A)
| Throw (e : exception)
| Undefined.
Arguments Ok {A} a.
Arguments Throw {A} e.
Arguments Undefined {A}.

#[global] Instance outcome_ret : MRet outcome := fun _ a => Ok a.
#[global] Instance outcome_bind : MBind outcome := fun _ _ f m =>
  match m with
  | Ok a => f a
  | Throw e => Throw e
  | Undefined => Undefined
  end.

Definition returns {A} (o : outcome A) : Prop := ∃ a, o = Ok a.
Definition throws {A} (o : outcome A) : Prop := ∃ e, o = Throw e.

(** ** [std::size_t]

    The width is that of the usual 64-bit targets. *)

Module SizeT.
Definition bits : Z := 64.
Definition modulus : Z := 2 ^ bits.
Definition max : Z := modulus - 1.
Definition in_range (z : Z) : Prop := 0 ≤ z ≤ max.
Definition wrap (z : Z) : Z := z mod modulus.
(** [a - b] on [size_t] operands *)
Definition sub (a b : Z) : Z := wrap (a - b).
End SizeT.

(** ** [float]

    Expressions of type [float] are evaluated in binary32, each operation
    rounded once to nearest, ties to even. *)

Module F32.
Definition prec : Z := 24.
Definition emax : Z := 128.
Definition t : Type := spec_float.

(** the literal [0] converted to [float] *)
Definition zero : t := S754_zero false.
(** [std::numeric_limits<float>::max()] *)
Definition max : t := SFmax_float prec emax.
Definition add : t → t → t := SFadd prec emax.
Definition div : t → t → t := SFdiv prec emax.
Definition ltb : t → t → bool := SFltb.
Definition leb : t → t → bool := SFleb.
(** conversion of an unsigned integer to [float] *)
Definition of_Z (z : Z) : t := binary_normalize prec emax z 0 false.
Definition valid (x : t) : bool := valid_binary prec emax x.
Definition is_nan (x : t) : bool :=
  match x with S754_nan => true | _ => false end.
Definition is_finite (x : t) : bool :=
  match x with S754_zero _ | S754_finite _ _ _ => true | _ => false end.
(** the value of a finite number, in units of 2^-150 *)
Definition val (x : t) : Z :=
  match x with
  | S754_finite s m e => cond_Zopp s (Zpos m * 2 ^ (e + 150))
  | _ => 0
  end.
(** zero, or finite with the mantissa the format prescribes for the
    exponent; the exponent is not bounded from above *)
Definition canonical (x : t) : bool :=
  match x with
  | S754_finite _ m e => canonical_mantissa prec emax m e
  | S754_zero _ => true
  | _ => false
  end.
End F32.

Abbreviation pinf := (S754_infinity false).
Abbreviation ninf := (S754_infinity true).

(** ** Vectors and loops *)

(** Modelled from the spec: [statscores_t] comes from [Types.h], which is not
    part of the header.  The scoring calls produce "scalar scores" into it and
    the helpers below copy its elements into [float] variables: it is taken to
    be [std::vector<float>]. *)
Abbreviation statscores_t := (list F32.t) (only parsing).

(** [v[i]] of [std::vector]: no bounds check, undefined outside the vector. *)
Definition vec_at {A} (v : list A) (i : Z) : outcome A :=
  if i <? 0 then Undefined
  else match v !! Z.to_nat i with
       | Some x => Ok x
       | None => Undefined
       end.

Fixpoint for_loop {S} (n : nat) (i : Z) (body : Z → S → outcome S) (s : S)
  : outcome S :=
  match n with
  | O => Ok s
  | Datatypes.S n' => s' ← body i s; for_loop n' (i + 1) body s'
  end.

(** [for (size_t i = start; i < end; ++i) body]: the index takes the values
    [start, start+1, ..., end-1], none at all when [end <= start]. *)
Definition for_range {S} (start end_ : Z) (body : Z → S → outcome S) (s : S)
  : outcome S :=
  for_loop (Z.to_nat (end_ - start)) start body s.

(** ** Regularisation strategies (Scorer.h, lines 169-192) *)

Definition score_min (scores : statscores_t) (start end_ : Z) : outcome F32.t :=
  for_range start end_
    (fun i min => x ← vec_at scores i; Ok (if F32.ltb x min then x else min))
    F32.max.

Definition score_average (scores : statscores_t) (start end_ : Z)
  : outcome F32.t :=
  if SizeT.sub end_ start <? 1 then
    (* this shouldn't happen *)
    Ok F32.zero
  else
    total ← for_range start end_
               (fun j total => x ← vec_at scores j; Ok (F32.add total x))
               F32.zero;
    Ok (F32.div total (F32.of_Z (SizeT.sub end_ start))).


(** ** C library: [atoi] *)

(** [isspace] in the C locale: space and the control characters 9 to 13. *)
Definition isspace (c : ascii) : bool :=
  let n := Z.of_N (N_of_ascii c) in
  (n =? 32) || ((9 <=? n) && (n <=? 13)).

Definition digit_value (c : ascii) : option Z :=
  let n := Z.of_N (N_of_ascii c) in
  if (48 <=? n) && (n <=? 57) then Some (n - 48) else None.

Fixpoint skip_spaces (s : string) : string :=
  match s with
  | String c s' => if isspace c then skip_spaces s' else s
  | EmptyString => s
  end.

(** the optional sign of the subject sequence: [(negative, rest)] *)
Definition take_sign (s : string) : bool * string :=
  match s with
  | String c s' =>
      if Ascii.eqb c "-" then (true, s')
      else if Ascii.eqb c "+" then (false, s')
      else (false, s)
  | EmptyString => (false, s)
  end.

(** the value of the longest prefix of decimal digits; 0 when there is none *)
Fixpoint digits_value (s : string) (acc : Z) : Z :=
  match s with
  | String c s' =>
      match digit_value c with
      | Some d => digits_value s' (10 * acc + d)
      | None => acc
      end
  | EmptyString => acc
  end.

Definition INT_MIN : Z := - 2 ^ 31.
Definition INT_MAX : Z := 2 ^ 31 - 1.

(** [atoi(s.c_str())]: white space, an optional sign, decimal digits.  No
    conversion gives 0; a value that does not fit [int] is undefined.  The
    character NUL, where [c_str()] ends, is neither a space nor a digit, so
    the scan stops there as well. *)
Definition atoi (s : string) : outcome Z :=
  let '(negative, ds) := take_sign (skip_spaces s) in
  let v := digits_value ds 0 in
  let v := if negative then - v else v in
  if (INT_MIN <=? v) && (v <=? INT_MAX) then Ok v else Undefined.

(** the string holds a number for [atoi]: a digit follows the spaces and sign *)
Definition parses_as_number (s : string) : bool :=
  match (take_sign (skip_spaces s)).2 with
  | String c _ => bool_decide (is_Some (digit_value c))
  | EmptyString => false
  end.

(** ** The class [Scorer] *)

Definition addr : Type := positive.
(** a raw pointer; [None] is the null pointer *)
Definition ptr : Type := option addr.
Definition NULL : ptr := None.

(** Modelled from the spec: [ScoreStats] is only forward-declared in the
    header.  It is one statistics entry, "an ordered, fixed-length sequence of
    numeric fields". *)
Abbreviation ScoreStats := (list Z) (only parsing).

(** Modelled from the spec: [ScoreData] comes from [ScoreData.h], which is not
    part of the header.  It is the statistics table, "one row per source
    sentence, each row itself holding one entry per candidate"; the header
    uses only its [size()], the row count. *)
Abbreviation ScoreData := (list (list ScoreStats)) (only parsing).
Definition ScoreData_size (d : ScoreData) : Z := Z.of_nat (length d).

(** Modelled from the spec: [PreProcessFilter] is only forward-declared.  It
    is the external filter process: it receives the sentence and emits the
    processed sentence, or fails. *)
Record PreProcessFilter : Type := {
  ProcessSentence : string → outcome string
}.

(** the objects the scorer points to but does not own *)
Record heap : Type := {
  score_data_at : gmap addr ScoreData
}.

Record Scorer : Type := {
  m_name : string;
  m_vocab : ptr;
  m_config : gmap string string;
  m_factors : list Z;
  m_filter : option PreProcessFilter;
  m_score_data : ptr;
  m_enable_preserve_case : bool
}.

(** [ScorerRegularisationStrategy] *)
Inductive ScorerRegularisationStrategy : Type :=
| REG_NONE | REG_AVERAGE | REG_MINIMUM.

(** *** Virtual members

    The members a derived scorer overrides, over the state [Self] of the
    derived object.  A call through [this->] dispatches to these. *)
Class ScorerVirtual (Self : Type) : Type := {
  setReferenceFiles : list string → Self → outcome Self;
  prepareStats : Z → string → ScoreStats → Self → outcome (Self * ScoreStats)
}.

(** [Scorer::setReferenceFiles]: do nothing *)
Definition Scorer_setReferenceFiles (referenceFiles : list string)
    (this : Scorer) : outcome Scorer :=
  Ok this.

(** [Scorer::prepareStats(size_t, ...)]: do nothing *)
Definition Scorer_prepareStats (sindex : Z) (text : string)
    (entry : ScoreStats) (this : Scorer) : outcome (Scorer * ScoreStats) :=
  Ok (this, entry).

(** [static_cast<std::size_t>] of an [int] *)
Definition size_t_of_int (n : Z) : Z := SizeT.wrap n.

(** [Scorer::prepareStats(const std::string&, ...)] *)
Definition Scorer_prepareStats_str `{ScorerVirtual Self} (sindex text : string)
    (entry : ScoreStats) (this : Self) : outcome (Self * ScoreStats) :=
  n ← atoi sindex;
  prepareStats (size_t_of_int n) text entry this.

(** a scorer that overrides neither member *)
#[global] Instance Scorer_defaults : ScorerVirtual Scorer := {
  setReferenceFiles := Scorer_setReferenceFiles;
  prepareStats := Scorer_prepareStats
}.

(** *** Members defined in the header *)

Definition getName (this : Scorer) : string := m_name this.

Definition getReferenceSize (h : heap) (this : Scorer) : outcome Z :=
  match m_score_data this with
  | Some p =>
      match score_data_at h !! p with
      | Some data => Ok (ScoreData_size data)
      | None => Undefined   (* dangling pointer *)
      end
  | None => Ok 0
  end.

Definition setScoreData (data : ptr) (this : Scorer) : Scorer :=
  {| m_name := m_name this;
     m_vocab := m_vocab this;
     m_config := m_config this;
     m_factors := m_factors this;
     m_filter := m_filter this;
     m_score_data := data;
     m_enable_preserve_case := m_enable_preserve_case this |}.

Definition GetVocab (this : Scorer) : ptr := m_vocab this.

Definition getConfig (key def : string) (this : Scorer) : string :=
  match m_config this !! key with
  | None => def
  | Some v => v
  end.

(** A [const] member function in state-passing form: the object comes back
    as it went in. *)
Definition const_call {A} (f : Scorer → A) (this : Scorer) : A * Scorer :=
  (f this, this).

(** *** Preprocessing *)

(** Modelled from the spec: splitting for factor selection.  The pieces of
    [s] between the characters that satisfy [p], empty pieces included. *)
Fixpoint split_where (p : ascii → bool) (s : string) : list string :=
  match s with
  | EmptyString => [EmptyString]
  | String c s' =>
      if p c then EmptyString :: split_where p s'
      else match split_where p s' with
           | piece :: pieces => String c piece :: pieces
           | [] => [String c EmptyString]
           end
  end.

(** Modelled from the spec: the "whitespace-delimited tokens" of a sentence. *)
Definition whitespace_tokens (s : string) : list string :=
  List.filter (fun w => negb (String.eqb w EmptyString)) (split_where isspace s).

(** Modelled from the spec: the "fixed delimiter" of the factors of a token;
    the spec's tokens are "slash-delimited". *)
Definition factor_delimiter : ascii := "/"%char.

(** Modelled from the spec: one configured factor of a token; an index the
    token does not provide "fails with an invalid factor kind". *)
Definition select_factor (fields : list string) (k : Z) : outcome string :=
  if k <? 0 then Throw (runtime_error "invalid factor")
  else match fields !! Z.to_nat k with
       | Some f => Ok f
       | None => Throw (runtime_error "invalid factor")
       end.

(** Modelled from the spec: [Scorer::applyFactors] is declared in the header
    and defined elsewhere.  "If one or more factor indices are configured,
    split each whitespace-delimited token on a fixed delimiter and keep only
    the configured factor fields, rejoined with the same delimiter; absent
    configuration keeps the token unchanged.  Selecting a factor index beyond
    what a token provides is an error condition". *)
Definition applyFactors (sentence : string) (this : Scorer) : outcome string :=
  match m_factors this with
  | [] => Ok sentence
  | factors =>
      tokens ← mapM (fun token =>
                  kept ← mapM (select_factor
                                 (split_where (Ascii.eqb factor_delimiter) token))
                              factors;
                  Ok (String.concat (String factor_delimiter EmptyString) kept))
               (whitespace_tokens sentence);
      Ok (String.concat " " tokens)
  end.

(** Modelled from the spec: [Scorer::applyFilter] is declared in the header
    and defined elsewhere.  "If a filter command is configured, pipe the raw
    sentence through it and use its output verbatim; empty configuration is a
    no-op"; a failure of the process is surfaced to the caller. *)
Definition applyFilter (sentence : string) (this : Scorer) : outcome string :=
  match m_filter this with
  | Some filter => ProcessSentence filter sentence
  | None => Ok sentence
  end.

(** [Scorer::preprocessSentence]: [applyFactors(applyFilter(sentence))]; the
    argument is evaluated first. *)
Definition preprocessSentence (sentence : string) (this : Scorer)
  : outcome string :=
  filtered ← applyFilter sentence this;
  applyFactors filtered this.

(** *** The scoring protocol *)

(** Modelled from the spec: [candidates_t] and [diffs_t] come from [Types.h],
    which is not part of the header.  A selection is "a sequence of one index
    per source sentence" and a diff "a single change to a selection --
    (sentence index, new candidate index)". *)
Abbreviation candidates_t := (list Z) (only parsing).
Abbreviation diff_t := (Z * Z)%type (only parsing).
Abbreviation diffs_t := (list diff_t) (only parsing).

Section ScoringProtocol.

(** the parts a concrete metric supplies *)
Variable NumberOfScores : nat.
Variable calculateScore : ScoreStats → F32.t.

(** Modelled from the spec: reading a table entry.  "Statistics entry length
    mismatch against [NumberOfScores()]: fatal for the current operation". *)
Definition checked_entry (row : list ScoreStats) (nid : Z)
  : outcome ScoreStats :=
  entry ← vec_at row nid;
  if (length entry =? NumberOfScores)%nat then Ok entry
  else Throw (runtime_error "statistics entry length mismatch").

(** Modelled from the spec: entries are "algebraically combinable and
    subtractable", field by field. *)
Definition add_entry (total entry : ScoreStats) : ScoreStats :=
  zip_with Z.add total entry.
Definition sub_entry (total entry : ScoreStats) : ScoreStats :=
  zip_with Z.sub total entry.

(** Modelled from the spec: the baseline aggregate.  "For each sentence row,
    fetch the entry at the selection's chosen candidate index, accumulate
    across all rows into one aggregate entry." *)
Fixpoint accumulate (rows : list (list ScoreStats)) (sid : Z)
    (selection : candidates_t) (total : ScoreStats) : outcome ScoreStats :=
  match rows with
  | [] => Ok total
  | row :: rows' =>
      nid ← vec_at selection sid;
      entry ← checked_entry row nid;
      accumulate rows' (sid + 1) selection (add_entry total entry)
  end.

(** Modelled from the spec: the incremental phase.  "For each diff in the
    given order: update only the one row whose sentence index the diff names
    (remove that row's old contribution from the running aggregate, add the
    contribution of the new candidate index), recompute the scalar from the
    updated aggregate, and append it.  The selection state carries
    forward." *)
Fixpoint apply_diffs (data : ScoreData) (selection : candidates_t)
    (total : ScoreStats) (diffs : diffs_t) : outcome statscores_t :=
  match diffs with
  | [] => Ok []
  | (sid, nid) :: diffs' =>
      row ← vec_at data sid;
      last_nid ← vec_at selection sid;
      old_entry ← checked_entry row last_nid;
      new_entry ← checked_entry row nid;
      let total' := add_entry (sub_entry total old_entry) new_entry in
      scores ← apply_diffs data (<[Z.to_nat sid := nid]> selection) total' diffs';
      Ok (calculateScore total' :: scores)
  end.

(** Modelled from the spec: the table the scorer is bound to; "calling any
    scoring operation before [setScoreData] is an error (score data not
    loaded)". *)
Definition bound_table (h : heap) (this : Scorer) : outcome ScoreData :=
  match m_score_data this with
  | None => Throw (runtime_error "score data not loaded")
  | Some p =>
      match score_data_at h !! p with
      | Some data => Ok data
      | None => Undefined
      end
  end.

(** Modelled from the spec: [score(candidates, diffs, scores)] is pure
    virtual in the header; its body belongs to the derived scorers.  "1.
    Compute and emit the baseline scalar for the selection as the first
    output element.  2. For each diff in the given order [...] append it to
    the output."  It "fails with a score data not loaded condition if no
    table is bound".  The result is the filled output sequence. *)
Definition score (h : heap) (this : Scorer) (candidates : candidates_t)
    (diffs : diffs_t) : outcome statscores_t :=
  data ← bound_table h this;
  total ← accumulate data 0 candidates (replicate NumberOfScores 0);
  scores ← apply_diffs data candidates total diffs;
  Ok (calculateScore total :: scores).

(** Inputs on which the protocol is defined: entries of the metric's width,
    one valid candidate index per row, diffs that name existing entries. *)
Definition valid_index {A} (l : list A) (i : Z) : Prop :=
  0 ≤ i < Z.of_nat (length l).
Definition table_wf (data : ScoreData) : Prop :=
  Forall (Forall (fun entry => length entry = NumberOfScores)) data.
Definition selection_wf (data : ScoreData) (selection : candidates_t) : Prop :=
  ∀ i row, data !! i = Some row →
    ∃ nid, selection !! i = Some nid ∧ valid_index row nid.
Definition diff_wf (data : ScoreData) (d : diff_t) : Prop :=
  ∃ row, 0 ≤ d.1 ∧ data !! Z.to_nat d.1 = Some row ∧ valid_index row d.2.

End ScoringProtocol.

(** ** Example objects *)

(** a filter that rewrites the factor delimiter, as [tr / _] does *)
Fixpoint tr_slash (s : string) : string :=
  match s with
  | EmptyString => EmptyString
  | String c s' => String (if Ascii.eqb c "/" then "_"%char else c) (tr_slash s')
  end.

(** a scorer with neither factors, filter nor score data *)
Definition bare_scorer : Scorer :=
  {| m_name := "BLEU"; m_vocab := NULL; m_config := ∅; m_factors := [];
     m_filter := None; m_score_data := NULL; m_enable_preserve_case := true |}.

(** a scorer that keeps factor 0 and filters through [tr_slash] *)
Definition example_scorer : Scorer :=
  {| m_name := "BLEU"; m_vocab := NULL; m_config := ∅; m_factors := [0];
     m_filter := Some {| ProcessSentence := fun s => Ok (tr_slash s) |};
     m_score_data := NULL; m_enable_preserve_case := true |}.

(** a derived scorer that overrides [prepareStats(size_t, ...)] and notes
    the sentence indices it is called with, latest first *)
Record IndexLog : Type := { seen : list Z }.

#[global] Instance IndexLog_virtual : ScorerVirtual IndexLog := {
  setReferenceFiles := fun _ this => Ok this;
  prepareStats := fun sindex _ entry this =>
    Ok ({| seen := sindex :: seen this |}, entry)
}.

(** two sentences with two candidates each; entries are [matches, length] *)
Definition example_table : ScoreData := [[[3; 5]; [4; 5]]; [[1; 4]; [2; 4]]].
Definition example_heap : heap :=
  {| score_data_at := {[ 1%positive := example_table ]} |}.

(** a scorer configured with [case:false] *)
Definition configured_scorer : Scorer :=
  {| m_name := "BLEU"; m_vocab := NULL; m_config := {[ "case" := "false" ]};
     m_factors := []; m_filter := None; m_score_data := Some 1%positive;
     m_enable_preserve_case := false |}.

(** the metric of the spec's example: matches / length *)
Definition matches_over_length (stats : ScoreStats) : F32.t :=
  match stats with
  | [matches; len] => F32.div (F32.of_Z matches) (F32.of_Z len)
  | _ => F32.zero
  end.

(** the [float] 11184814 * 2^-24, the nearest one above 2/3 *)
Definition two_thirds : F32.t := S754_finite false 11184814 (-24).

(** ** Notions used in the proofs about rounding *)

(** what [k] right shifts of [m] leave in a shift record: the quotient, and
    cleared round and sticky bits when the division is exact *)
Definition shr_invariant (m : Z) (k : Z) (mrs : shr_record) : Prop :=
  shr_m mrs = m / 2 ^ k
  /\ (m mod 2 ^ k = 0 -> shr_r mrs = false /\ shr_s mrs = false).

(** the result [r] of rounding to the mantissa [M] at exponent [E] *)
Definition round_shape (s : bool) (M E : Z) (r : spec_float) : Prop :=
  (M = 0 /\ r = S754_zero s)
  \/ (0 < M /\ r = S754_infinity s)
  \/ (exists m' e', r = S754_finite s m' e'
        /\ canonical_mantissa F32.prec F32.emax m' e' = true
        /\ Zpos m' * 2 ^ (e' - E) = M /\ E <= e').

(** [F], in units of 2^-150, is zero or the value of a canonical number *)
Definition representable (F : Z) : Prop :=
  F = 0 \/ exists mf ef, canonical_mantissa F32.prec F32.emax mf ef = true
                         /\ Z.abs F = Zpos mf * 2 ^ (ef + 150).

(** ** Notions used in the further properties *)

(** the scores of [[start, end)] *)
Definition slice {A} (v : list A) (start end_ : Z) : list A :=
  take (Z.to_nat (end_ - start)) (drop (Z.to_nat start) v).

(** the body of the minimum loop: [if (x < lo) lo = x] *)
Definition keep_min (lo x : F32.t) : F32.t := if F32.ltb x lo then x else lo.

(** what the two loops compute from the scores of the range *)
Definition float_min (xs : list F32.t) : F32.t := foldl keep_min F32.max xs.
Definition float_sum (xs : list F32.t) : F32.t := foldl F32.add F32.zero xs.

(** a running total that is finite or an infinity *)
Definition no_nan_total (t : F32.t) : Prop :=
  t = pinf ∨ t = ninf ∨ F32.canonical t = true.

(** a running total that is non-negative *)
Definition nonneg_total (t : F32.t) : Prop :=
  t = pinf ∨ (F32.canonical t = true ∧ 0 ≤ F32.val t).

(** the character of the decimal digit [d] *)
Definition digit_char (d : Z) : ascii := ascii_of_N (Z.to_N (48 + d)).

(** the decimal numeral with the digits [ds], most significant first *)
Fixpoint decimal_string (ds : list Z) : string :=
  match ds with
  | [] => EmptyString
  | d :: ds' => String (digit_char d) (decimal_string ds')
  end.

(** the number that numeral denotes *)
Definition decimal_value (ds : list Z) : Z := foldl (fun a d => 10 * a + d) 0 ds.

Definition is_digit (d : Z) : Prop := 0 ≤ d ≤ 9.

(** the string holds white space only *)
Fixpoint all_spaces (s : string) : bool :=
  match s with
  | EmptyString => true
  | String c s' => isspace c && all_spaces s'
  end.

(** the string does not continue a numeral *)
Definition no_leading_digit (s : string) : bool :=
  match s with
  | String c _ => negb (bool_decide (is_Some (digit_value c)))
  | EmptyString => true
  end.

(** * Properties *)

(** ** The outcome monad and the loop *)

Lemma outcome_bind_Ok {A B} (f : A → outcome B) (a : A) : Ok a ≫= f = f a.
Proof. reflexivity. Qed.

Lemma outcome_bind_inv {A B} (f : A → outcome B) (m : outcome A) (b : B) :
  m ≫= f = Ok b → ∃ a, m = Ok a ∧ f a = Ok b.
Proof. destruct m as [a| |]; simpl; intros E; try discriminate. eauto. Qed.

Lemma for_range_done {S} start end_ (body : Z → S → outcome S) s :
  end_ ≤ start → for_range start end_ body s = Ok s.
Proof.
  intros Hle. unfold for_range.
  replace (Z.to_nat (end_ - start)) with O by lia. reflexivity.
Qed.

(** The loop equation: one iteration at [start], then the loop from
    [start + 1]. *)
Lemma for_range_step {S} start end_ (body : Z → S → outcome S) s :
  start < end_ →
  for_range start end_ body s = body start s ≫= for_range (start + 1) end_ body.
Proof.
  intros Hlt. unfold for_range.
  replace (Z.to_nat (end_ - start))
    with (Datatypes.S (Z.to_nat (end_ - (start + 1)))) by lia.
  reflexivity.
Qed.

Lemma for_loop_ext {S} n i (body1 body2 : Z → S → outcome S) s :
  (∀ j s', i ≤ j < i + Z.of_nat n → body1 j s' = body2 j s') →
  for_loop n i body1 s = for_loop n i body2 s.
Proof.
  revert i s. induction n as [|n IH]; intros i s Hext; [reflexivity|].
  simpl. rewrite Hext by lia.
  destruct (body2 i s) as [s'| |]; simpl; try reflexivity.
  apply IH. intros j s'' Hj. apply Hext. lia.
Qed.

Lemma for_range_ext {S} start end_ (body1 body2 : Z → S → outcome S) s :
  (∀ j s', start ≤ j < end_ → body1 j s' = body2 j s') →
  for_range start end_ body1 s = for_range start end_ body2 s.
Proof.
  intros Hext. unfold for_range. apply for_loop_ext.
  intros j s' Hj. apply Hext. lia.
Qed.

Lemma vec_at_agree {A} (v1 v2 : list A) i :
  v1 !! Z.to_nat i = v2 !! Z.to_nat i → vec_at v1 i = vec_at v2 i.
Proof. intros E. unfold vec_at. rewrite E. reflexivity. Qed.

Lemma vec_at_valid {A} (v : list A) i :
  0 ≤ i < Z.of_nat (length v) → ∃ x, v !! Z.to_nat i = Some x ∧ vec_at v i = Ok x.
Proof.
  intros Hi. destruct (lookup_lt_is_Some_2 v (Z.to_nat i)) as [x Hx]; [lia|].
  exists x. split; [assumption|]. unfold vec_at.
  destruct (Z.ltb_spec i 0); [lia|]. rewrite Hx. reflexivity.
Qed.

(** ** Regularisation helpers *)

Lemma SizeT_sub_lt_1 start end_ :
  SizeT.in_range start → SizeT.in_range end_ →
  SizeT.sub end_ start < 1 ↔ end_ = start.
Proof.
  unfold SizeT.in_range, SizeT.sub, SizeT.wrap, SizeT.max, SizeT.modulus, SizeT.bits.
  intros Hs He. split.
  - intros Hlt. destruct (Z.lt_trichotomy end_ start) as [Hc|[Hc|Hc]]; [|assumption|].
    + replace (end_ - start) with ((end_ - start + 2 ^ 64) + (-1) * 2 ^ 64) in Hlt by ring.
      rewrite Z.mod_add in Hlt by lia. rewrite Z.mod_small in Hlt; lia.
    + rewrite Z.mod_small in Hlt; lia.
  - intros ->. rewrite Z.sub_diag. reflexivity.
Qed.

(** C8.  On an empty index range ([start >= end]) [score_min] returns
    [std::numeric_limits<float>::max()]: the loop body never runs, nothing is
    read from the vector and no error is raised. *)
Theorem score_min_empty_range (scores : statscores_t) (start end_ : Z) :
  end_ ≤ start → score_min scores start end_ = Ok F32.max.
Proof. intros Hle. unfold score_min. apply for_range_done, Hle. Qed.

Lemma score_min_empty_range_witness :
  3 ≤ 5 ∧ score_min [F32.zero] 5 3 = Ok F32.max.
Proof. split; [lia | apply (score_min_empty_range [F32.zero] 5 3); lia]. Defined.

(** [numeric_limits<float>::max()] is (2^24 - 1) * 2^104. *)
Lemma F32_max_value : F32.max = S754_finite false (2 ^ 24 - 1) 104.
Proof. reflexivity. Qed.

(** C10.  [score_min] and [score_average] read the vector only at the indices
    of [[start, end)]: two vectors that agree there give the same outcome,
    value or undefined read alike. *)
Theorem regularisation_depends_on_range_only
    (scores1 scores2 : statscores_t) (start end_ : Z) :
  (∀ i, start ≤ i < end_ → scores1 !! Z.to_nat i = scores2 !! Z.to_nat i) →
  score_min scores1 start end_ = score_min scores2 start end_
  ∧ score_average scores1 start end_ = score_average scores2 start end_.
Proof.
  intros Hagree. split.
  - unfold score_min. apply for_range_ext. intros j s' Hj.
    rewrite (vec_at_agree scores1 scores2) by auto. reflexivity.
  - unfold score_average. destruct (SizeT.sub end_ start <? 1); [reflexivity|].
    f_equal. apply for_range_ext. intros j s' Hj.
    rewrite (vec_at_agree scores1 scores2) by auto. reflexivity.
Qed.

(** C2 as stated fails: on the empty range [[1, 1)] the call returns 0 and
    throws nothing. *)
Lemma score_average_empty_counterexample :
  SizeT.sub 1 1 < 1
  ∧ score_average [F32.max] 1 1 = Ok F32.zero
  ∧ ¬ throws (score_average [F32.max] 1 1).
Proof.
  split; [reflexivity|]. split; [reflexivity|].
  intros [e He]. discriminate He.
Qed.

(** C2, amended.  When [end - start < 1] in [size_t] arithmetic, that is when
    [end = start], [score_average] takes its guard: it returns 0, reads
    nothing and raises no error. *)
Theorem score_average_empty_range (scores : statscores_t) (start end_ : Z) :
  SizeT.in_range start → SizeT.in_range end_ →
  SizeT.sub end_ start < 1 →
  score_average scores start end_ = Ok F32.zero.
Proof.
  intros Hs He Hlt. unfold score_average.
  destruct (Z.ltb_spec (SizeT.sub end_ start) 1); [reflexivity | lia].
Qed.

Lemma score_average_empty_range_witness :
  score_average [F32.max] 1 1 = Ok F32.zero.
Proof.
  apply (score_average_empty_range [F32.max] 1 1); vm_compute; try split; congruence.
Defined.

Lemma regularisation_depends_on_range_only_witness :
  score_min [F32.zero; F32.max; F32.zero] 1 2 = score_min [F32.max; F32.max] 1 2
  ∧ score_average [F32.zero; F32.max; F32.zero] 1 2
    = score_average [F32.max; F32.max] 1 2.
Proof.
  apply (regularisation_depends_on_range_only
           [F32.zero; F32.max; F32.zero] [F32.max; F32.max] 1 2).
  intros i Hi. replace i with 1 by lia. reflexivity.
Defined.

(** ** Preprocessing order *)

(** C1 as stated fails.  With factor 0 selected and a filter that rewrites
    the factor delimiter, the code filters first and then finds a single
    field per token; selecting factors first would drop the second field. *)
Lemma preprocessSentence_order_counterexample :
  preprocessSentence "the/DT cat/NN" example_scorer = Ok "the_DT cat_NN"
  ∧ (s ← applyFactors "the/DT cat/NN" example_scorer; applyFilter s example_scorer)
    = Ok "the cat"
  ∧ preprocessSentence "the/DT cat/NN" example_scorer
    ≠ (s ← applyFactors "the/DT cat/NN" example_scorer; applyFilter s example_scorer).
Proof. split; [reflexivity|]. split; [reflexivity|]. discriminate. Qed.

(** C1, amended.  [preprocessSentence] applies the filter first and the
    factor selection second, to the filter's output; a failure of the filter
    is the failure of the whole call. *)
Theorem preprocessSentence_filter_then_factors (sentence : string) (this : Scorer) :
  preprocessSentence sentence this
  = (filtered ← applyFilter sentence this; applyFactors filtered this)
  ∧ (∀ e, applyFilter sentence this = Throw e →
          preprocessSentence sentence this = Throw e)
  ∧ (∀ filter filtered,
       m_filter this = Some filter → ProcessSentence filter sentence = Ok filtered →
       preprocessSentence sentence this = applyFactors filtered this).
Proof.
  split; [reflexivity|]. split.
  - intros e He. unfold preprocessSentence. rewrite He. reflexivity.
  - intros filter filtered Hf Hp. unfold preprocessSentence, applyFilter.
    rewrite Hf, Hp. reflexivity.
Qed.

(** The two orders differ only when both a filter and factors are set. *)
Lemma preprocessSentence_orders_agree (sentence : string) (this : Scorer) :
  m_filter this = None ∨ m_factors this = [] →
  preprocessSentence sentence this
  = (s ← applyFactors sentence this; applyFilter s this).
Proof.
  unfold preprocessSentence, applyFilter, applyFactors.
  intros [-> | ->]; simpl.
  - destruct (m_factors this); [reflexivity|].
    match goal with |- ?m = _ => destruct m; reflexivity end.
  - destruct (m_filter this) as [f|]; [|reflexivity].
    destruct (ProcessSentence f sentence); reflexivity.
Qed.

(** ** Statistics extraction *)

(** C4 as stated fails.  On a scorer on which [setReferenceFiles] was never
    called, [prepareStats] returns normally and leaves the entry as it was. *)
Lemma prepareStats_before_references_counterexample :
  Scorer_prepareStats 0 "the cat" [] bare_scorer = Ok (bare_scorer, [])
  ∧ ¬ throws (Scorer_prepareStats 0 "the cat" [] bare_scorer).
Proof. split; [reflexivity|]. intros [e He]. discriminate He. Qed.

(** C4, amended.  In the base class both members do nothing:
    [setReferenceFiles] records nothing, and [prepareStats] returns normally
    with the scorer and the entry unchanged, whether or not
    [setReferenceFiles] was called before. *)
Theorem prepareStats_base_does_nothing
    (files : list string) (sindex : Z) (text : string) (entry : ScoreStats)
    (this : Scorer) :
  Scorer_setReferenceFiles files this = Ok this
  ∧ Scorer_prepareStats sindex text entry this = Ok (this, entry)
  ∧ (this' ← Scorer_setReferenceFiles files this;
     Scorer_prepareStats sindex text entry this')
    = Scorer_prepareStats sindex text entry this.
Proof. repeat split. Qed.

(** The same through the string-indexed overload of a scorer that overrides
    nothing, for an index that [atoi] can convert. *)
Lemma prepareStats_str_base_does_nothing
    (sindex text : string) (entry : ScoreStats) (this : Scorer) (n : Z) :
  atoi sindex = Ok n →
  Scorer_prepareStats_str sindex text entry this = Ok (this, entry).
Proof. intros E. unfold Scorer_prepareStats_str. rewrite E. reflexivity. Qed.

(** ** The string-indexed overload *)

Lemma digits_value_not_number (s : string) :
  match s with
  | String c _ => bool_decide (is_Some (digit_value c))
  | EmptyString => false
  end = false →
  digits_value s 0 = 0.
Proof.
  destruct s as [|c s]; [reflexivity|]. simpl.
  destruct (digit_value c) as [d|]; [|reflexivity].
  intros Hd. apply bool_decide_eq_false in Hd. destruct Hd. eauto.
Qed.

Lemma atoi_not_number (s : string) :
  parses_as_number s = false → atoi s = Ok 0.
Proof.
  unfold parses_as_number, atoi.
  destruct (take_sign (skip_spaces s)) as [negative ds]. simpl.
  intros Hd. rewrite (digits_value_not_number ds Hd).
  destruct negative; reflexivity.
Qed.

(** The overload hands the parsed index, converted to [size_t], to the
    overridable member. *)
Lemma prepareStats_str_delegates `{ScorerVirtual Self}
    (sindex text : string) (entry : ScoreStats) (this : Self) (n : Z) :
  atoi sindex = Ok n →
  Scorer_prepareStats_str sindex text entry this
  = prepareStats (size_t_of_int n) text entry this.
Proof. intros E. unfold Scorer_prepareStats_str. rewrite E. reflexivity. Qed.

Lemma digit_char_spec (d : Z) :
  is_digit d →
  digit_value (digit_char d) = Some d
  ∧ isspace (digit_char d) = false
  ∧ Ascii.eqb (digit_char d) "-" = false
  ∧ Ascii.eqb (digit_char d) "+" = false.
Proof.
  intros Hd.
  assert (d = 0 ∨ d = 1 ∨ d = 2 ∨ d = 3 ∨ d = 4 ∨ d = 5 ∨ d = 6 ∨ d = 7
          ∨ d = 8 ∨ d = 9) as Hcases by (unfold is_digit in Hd; lia).
  repeat destruct Hcases as [-> | Hcases]; try subst d; repeat split; reflexivity.
Qed.

Lemma digits_value_decimal (ds : list Z) (rest : string) :
  Forall is_digit ds → no_leading_digit rest = true →
  ∀ acc, digits_value (decimal_string ds +:+ rest) acc
         = foldl (fun a d => 10 * a + d) acc ds.
Proof.
  intros Hds Hrest. induction Hds as [|d ds Hd _ IH]; intros acc.
  - change (decimal_string [] +:+ rest) with rest. cbn [foldl].
    destruct rest as [|c rest]; [reflexivity|].
    cbn [digits_value]. cbn [no_leading_digit] in Hrest.
    destruct (digit_value c) eqn:E; [|reflexivity].
    rewrite bool_decide_eq_true_2 in Hrest by eauto. discriminate.
  - change (decimal_string (d :: ds) +:+ rest)
      with (String (digit_char d) (decimal_string ds +:+ rest)).
    cbn [digits_value foldl].
    destruct (digit_char_spec d Hd) as (-> & _). apply IH.
Qed.

Lemma skip_spaces_app (ws s : string) :
  all_spaces ws = true → skip_spaces (ws +:+ s) = skip_spaces s.
Proof.
  induction ws as [|c ws IH]; [reflexivity|]. intros H.
  cbn [all_spaces] in H. apply andb_prop in H as [Hc Hws].
  change (String c ws +:+ s) with (String c (ws +:+ s)).
  cbn [skip_spaces]. rewrite Hc. apply IH, Hws.
Qed.

Lemma foldl_decimal_nonneg (ds : list Z) :
  Forall is_digit ds → ∀ acc, 0 ≤ acc → 0 ≤ foldl (fun a d => 10 * a + d) acc ds.
Proof.
  induction 1 as [|d ds Hd _ IH]; intros acc Hacc; cbn [foldl]; [assumption|].
  apply IH. unfold is_digit in Hd. lia.
Qed.

(** [atoi] on white space, an optional sign, at least one digit and any
    text that does not continue the number *)
Lemma atoi_decimal (ws : string) (negative : bool) (sign : string)
    (d : Z) (ds : list Z) (rest : string) :
  all_spaces ws = true →
  (sign = EmptyString ∧ negative = false)
  ∨ (sign = "+"%string ∧ negative = false)
  ∨ (sign = "-"%string ∧ negative = true) →
  Forall is_digit (d :: ds) → no_leading_digit rest = true →
  let v := decimal_value (d :: ds) in
  INT_MIN ≤ (if negative then - v else v) ≤ INT_MAX →
  atoi (ws +:+ sign +:+ decimal_string (d :: ds) +:+ rest)
  = Ok (if negative then - v else v).
Proof.
  intros Hws Hsign Hds Hrest v Hfit. unfold atoi.
  rewrite skip_spaces_app by assumption.
  pose proof (Forall_inv Hds) as Hd.
  destruct (digit_char_spec d Hd) as (Hdv & Hsp & Hminus & Hplus).
  assert (Htake : take_sign (skip_spaces (sign +:+ decimal_string (d :: ds) +:+ rest))
                  = (negative, decimal_string (d :: ds) +:+ rest)).
  { destruct Hsign as [[-> ->] | [[-> ->] | [-> ->]]].
    - change (EmptyString +:+ decimal_string (d :: ds) +:+ rest)
        with (String (digit_char d) (decimal_string ds +:+ rest)).
      cbn [skip_spaces]. rewrite Hsp. cbn [take_sign].
      rewrite Hminus, Hplus. reflexivity.
    - reflexivity.
    - reflexivity. }
  rewrite Htake. rewrite (digits_value_decimal (d :: ds) rest Hds Hrest 0).
  fold (decimal_value (d :: ds)). fold v.
  destruct (Z.leb_spec INT_MIN (if negative then - v else v)); [|lia].
  destruct (Z.leb_spec (if negative then - v else v) INT_MAX); [|lia].
  reflexivity.
Qed.

(** C9.  The string-indexed [prepareStats] parses the sentence index with
    [atoi] and calls the [size_t] overload of the derived scorer with the
    parsed value converted to [size_t]: whatever [atoi] returns is the index
    the delegate sees; a decimal numeral, after white space and before any
    other text, reaches it as its value; and an index string that holds no
    number, on which [atoi] yields 0, reaches it as sentence index 0.  The
    outcome is the delegate's own: the overload adds no error. *)
Theorem prepareStats_str_parses_and_delegates `{ScorerVirtual Self}
    (sindex text : string) (entry : ScoreStats) (this : Self) :
  (∀ n, atoi sindex = Ok n →
     Scorer_prepareStats_str sindex text entry this
     = prepareStats (size_t_of_int n) text entry this)
  ∧ (∀ ws d ds rest,
       sindex = ws +:+ decimal_string (d :: ds) +:+ rest →
       all_spaces ws = true → Forall is_digit (d :: ds) →
       no_leading_digit rest = true → decimal_value (d :: ds) ≤ INT_MAX →
       atoi sindex = Ok (decimal_value (d :: ds))
       ∧ Scorer_prepareStats_str sindex text entry this
         = prepareStats (decimal_value (d :: ds)) text entry this)
  ∧ (parses_as_number sindex = false →
       atoi sindex = Ok 0
       ∧ Scorer_prepareStats_str sindex text entry this
         = prepareStats 0 text entry this).
Proof.
  split; [|split].
  - intros n E. apply prepareStats_str_delegates, E.
  - intros ws d ds rest -> Hws Hds Hrest Hfit.
    pose proof (foldl_decimal_nonneg (d :: ds) Hds 0 ltac:(lia)) as Hpos.
    fold (decimal_value (d :: ds)) in Hpos.
    assert (E : atoi (ws +:+ decimal_string (d :: ds) +:+ rest)
                = Ok (decimal_value (d :: ds))).
    { apply (atoi_decimal ws false EmptyString d ds rest); auto.
      cbn zeta. unfold INT_MIN. lia. }
    split; [exact E|].
    rewrite (prepareStats_str_delegates _ _ _ _ _ E).
    unfold size_t_of_int, SizeT.wrap, SizeT.modulus, SizeT.bits.
    rewrite Z.mod_small; [reflexivity|]. unfold INT_MAX in Hfit. lia.
  - intros Hn. pose proof (atoi_not_number sindex Hn) as E.
    split; [exact E|]. rewrite (prepareStats_str_delegates _ _ _ _ 0 E). reflexivity.
Qed.

Lemma prepareStats_str_parses_and_delegates_witness :
  Scorer_prepareStats_str " 12th" "the cat" [] {| seen := [] |}
  = Ok ({| seen := [12] |}, [])
  ∧ Scorer_prepareStats_str "first" "the cat" [] {| seen := [] |}
    = Ok ({| seen := [0] |}, []).
Proof.
  split.
  - destruct (prepareStats_str_parses_and_delegates
                " 12th" "the cat" [] {| seen := [] |}) as (_ & Hdecimal & _).
    destruct (Hdecimal " "%string 1 [2] "th"%string) as [_ ->].
    + reflexivity.
    + reflexivity.
    + repeat constructor; unfold is_digit; lia.
    + reflexivity.
    + unfold INT_MAX. cbn. lia.
    + reflexivity.
  - destruct (prepareStats_str_parses_and_delegates
                "first" "the cat" [] {| seen := [] |}) as (_ & _ & Hnone).
    destruct (Hnone eq_refl) as [_ ->]. reflexivity.
Defined.

(** ** Configuration and score data *)

(** C6.  After [setScoreData] with a pointer to a table, [getReferenceSize]
    returns the table's row count; with no table bound it returns 0. *)
Theorem getReferenceSize_spec (h : heap) (this : Scorer) (p : addr)
    (data : ScoreData) :
  score_data_at h !! p = Some data →
  getReferenceSize h (setScoreData (Some p) this) = Ok (Z.of_nat (length data))
  ∧ getReferenceSize h (setScoreData NULL this) = Ok 0
  ∧ (m_score_data this = NULL → getReferenceSize h this = Ok 0).
Proof.
  intros Hp. unfold getReferenceSize. simpl. rewrite Hp.
  repeat split. intros ->. reflexivity.
Qed.

Lemma getReferenceSize_spec_witness :
  getReferenceSize example_heap (setScoreData (Some 1%positive) bare_scorer) = Ok 2
  ∧ getReferenceSize example_heap (setScoreData NULL bare_scorer) = Ok 0
  ∧ (m_score_data bare_scorer = NULL → getReferenceSize example_heap bare_scorer = Ok 0).
Proof.
  apply (getReferenceSize_spec example_heap bare_scorer 1%positive example_table).
  reflexivity.
Defined.

(** C7.  [getConfig] returns the stored value of a key that is present and
    the default of one that is absent, and leaves the scorer, its
    configuration included, as it was. *)
Theorem getConfig_spec (key def : string) (this : Scorer) :
  (∀ v, m_config this !! key = Some v → getConfig key def this = v)
  ∧ (m_config this !! key = None → getConfig key def this = def)
  ∧ (const_call (getConfig key def) this).2 = this
  ∧ m_config (const_call (getConfig key def) this).2 = m_config this.
Proof.
  unfold getConfig. repeat split.
  - intros v ->. reflexivity.
  - intros ->. reflexivity.
Qed.

Lemma getConfig_spec_witness :
  getConfig "case" "true" configured_scorer = "false"
  ∧ getConfig "factors" "0" configured_scorer = "0".
Proof.
  split.
  - apply (getConfig_spec "case" "true" configured_scorer). reflexivity.
  - apply (getConfig_spec "factors" "0" configured_scorer). reflexivity.
Defined.

(** ** The incremental scoring call *)

Section ScoringProperties.

Variable NumberOfScores : nat.
Variable calculateScore : ScoreStats → F32.t.

Lemma apply_diffs_length data diffs : ∀ selection total scores,
  apply_diffs NumberOfScores calculateScore data selection total diffs = Ok scores →
  length scores = length diffs.
Proof.
  induction diffs as [|[sid nid] diffs IH]; intros selection total scores; simpl.
  - intros [= <-]. reflexivity.
  - intros E.
    apply outcome_bind_inv in E as (row & _ & E).
    apply outcome_bind_inv in E as (last_nid & _ & E).
    apply outcome_bind_inv in E as (old_entry & _ & E).
    apply outcome_bind_inv in E as (new_entry & _ & E).
    apply outcome_bind_inv in E as (rest & Hrest & E).
    injection E as <-. simpl. f_equal. eapply IH, Hrest.
Qed.

(** Whenever the call returns, it has produced one score for the baseline
    and one per diff. *)
Lemma score_length h this candidates diffs scores :
  score NumberOfScores calculateScore h this candidates diffs = Ok scores →
  length scores = (length diffs + 1)%nat.
Proof.
  unfold score. intros E.
  apply outcome_bind_inv in E as (data & _ & E).
  apply outcome_bind_inv in E as (total & _ & E).
  apply outcome_bind_inv in E as (rest & Hrest & E).
  injection E as <-. simpl. apply apply_diffs_length in Hrest. lia.
Qed.

Lemma checked_entry_returns row nid :
  Forall (fun entry => length entry = NumberOfScores) row →
  valid_index row nid →
  returns (checked_entry NumberOfScores row nid).
Proof.
  intros Hrow Hnid. unfold checked_entry.
  destruct (vec_at_valid row nid Hnid) as (entry & Hlook & Hat). rewrite Hat. simpl.
  rewrite Forall_lookup in Hrow. rewrite (Hrow _ _ Hlook), Nat.eqb_refl.
  eexists. reflexivity.
Qed.

Lemma accumulate_returns data selection :
  table_wf NumberOfScores data → selection_wf data selection →
  ∀ rows n total, rows = drop n data →
    returns (accumulate NumberOfScores rows (Z.of_nat n) selection total).
Proof.
  intros Htable Hsel. induction rows as [|row rows IH]; intros n total Hrows; simpl.
  - eexists. reflexivity.
  - assert (Hrow : data !! n = Some row).
    { rewrite <- (Nat.add_0_r n), <- lookup_drop, <- Hrows. reflexivity. }
    destruct (Hsel n row Hrow) as (nid & Hnid & Hvalid).
    unfold vec_at at 1. destruct (Z.ltb_spec (Z.of_nat n) 0); [lia|].
    rewrite Nat2Z.id, Hnid. simpl.
    destruct (checked_entry_returns row nid) as [entry ->]; [|assumption|].
    { unfold table_wf in Htable. rewrite Forall_lookup in Htable. eauto. }
    simpl. replace (Z.of_nat n + 1) with (Z.of_nat (Datatypes.S n)) by lia.
    apply IH. rewrite (drop_S _ _ _ Hrow) in Hrows. congruence.
Qed.

Lemma selection_wf_insert data selection sid row nid :
  selection_wf data selection → data !! sid = Some row → valid_index row nid →
  selection_wf data (<[sid := nid]> selection).
Proof.
  intros Hsel Hrow Hvalid i row' Hrow'.
  destruct (Hsel i row' Hrow') as (nid' & Hnid' & Hvalid').
  destruct (decide (sid = i)) as [<- | Hne].
  - exists nid. split.
    + apply list_lookup_insert_eq. eapply lookup_lt_Some, Hnid'.
    + congruence.
  - exists nid'. split; [|assumption]. rewrite list_lookup_insert_ne; assumption.
Qed.

Lemma apply_diffs_returns data diffs :
  table_wf NumberOfScores data → Forall (diff_wf data) diffs →
  ∀ selection total, selection_wf data selection →
    returns (apply_diffs NumberOfScores calculateScore data selection total diffs).
Proof.
  intros Htable. induction 1 as [|[sid nid] diffs (row & Hsid & Hrow & Hnid) _ IH];
    intros selection total Hsel; simpl in *.
  - eexists. reflexivity.
  - assert (Hforall : Forall (fun entry => length entry = NumberOfScores) row).
    { unfold table_wf in Htable. rewrite Forall_lookup in Htable. eauto. }
    destruct (Hsel _ _ Hrow) as (last_nid & Hlast & Hvalid).
    unfold vec_at at 1 2. destruct (Z.ltb_spec sid 0); [lia|].
    rewrite Hrow, Hlast. simpl.
    destruct (checked_entry_returns row last_nid) as [old_entry ->]; [assumption..|].
    destruct (checked_entry_returns row nid) as [new_entry ->]; [assumption..|].
    simpl.
    destruct (IH (<[Z.to_nat sid := nid]> selection)
                (add_entry (sub_entry total old_entry) new_entry)) as [rest ->].
    { eapply selection_wf_insert; eassumption. }
    eexists. reflexivity.
Qed.

(** C3.  For every selection and every diffs list, the output of the
    incremental call [score(candidates, diffs, scores)] holds exactly
    [diffs.size() + 1] scores, whatever the scorer, the table and the
    indices: no returning call produces another length.  The call does
    return when a table is bound, its entries have the metric's width, the
    selection has one valid index per row and the diffs name existing
    entries; with no table bound it fails with "score data not loaded" and
    produces no output. *)
Theorem score_output_length (h : heap) (this : Scorer)
    (candidates : candidates_t) (diffs : diffs_t) :
  (∀ scores,
     score NumberOfScores calculateScore h this candidates diffs = Ok scores →
     length scores = (length diffs + 1)%nat)
  ∧ (∀ p data,
       m_score_data this = Some p → score_data_at h !! p = Some data →
       table_wf NumberOfScores data → selection_wf data candidates →
       Forall (diff_wf data) diffs →
       returns (score NumberOfScores calculateScore h this candidates diffs))
  ∧ (m_score_data this = NULL →
       score NumberOfScores calculateScore h this candidates diffs
       = Throw (runtime_error "score data not loaded")).
Proof.
  split; [|split].
  - intros scores. apply score_length.
  - intros p data Hp Hdata Htable Hsel Hdiffs.
    unfold score, bound_table. rewrite Hp, Hdata. simpl.
    destruct (accumulate_returns data candidates Htable Hsel data 0%nat
                (replicate NumberOfScores 0) eq_refl) as [total Htotal].
    change (Z.of_nat 0) with 0 in Htotal. rewrite Htotal. simpl.
    destruct (apply_diffs_returns data diffs Htable Hdiffs candidates total Hsel)
      as [rest ->].
    eexists. reflexivity.
  - intros E. unfold score, bound_table. rewrite E. reflexivity.
Qed.

End ScoringProperties.

Lemma score_output_length_witness :
  (∃ scores,
     score 2 matches_over_length example_heap configured_scorer
       [0; 0] [(0, 1); (1, 1)] = Ok scores
     ∧ length scores = 3%nat)
  ∧ score 2 matches_over_length example_heap bare_scorer [0; 0] [(0, 1); (1, 1)]
    = Throw (runtime_error "score data not loaded").
Proof.
  split.
  - destruct (score_output_length 2 matches_over_length example_heap
                configured_scorer [0; 0] [(0, 1); (1, 1)]) as (Hlength & Hreturns & _).
    destruct (Hreturns 1%positive example_table) as [scores Hscores].
    + reflexivity.
    + reflexivity.
    + repeat constructor.
    + intros i row Hrow. destruct i as [|[|i]]; simpl in Hrow; inversion Hrow; subst.
      * exists 0. split; [reflexivity | unfold valid_index; simpl; lia].
      * exists 0. split; [reflexivity | unfold valid_index; simpl; lia].
    + repeat constructor.
      * exists [[3; 5]; [4; 5]]. simpl. unfold valid_index. simpl.
        split; [lia | split; [reflexivity | lia]].
      * exists [[1; 4]; [2; 4]]. simpl. unfold valid_index. simpl.
        split; [lia | split; [reflexivity | lia]].
    + exists scores. split; [exact Hscores | exact (Hlength scores Hscores)].
  - apply (score_output_length 2 matches_over_length example_heap bare_scorer
             [0; 0] [(0, 1); (1, 1)]). reflexivity.
Defined.

(** The spec's example: one sentence, candidates [[3,5]] and [[4,5]], metric
    matches / length; the baseline is 3/5 and the score after the diff 4/5,
    each rounded to [float]. *)
Example score_spec_example :
  score 2 matches_over_length
    {| score_data_at := {[ 1%positive := [[[3; 5]; [4; 5]]] ]} |}
    configured_scorer [0] [(0, 1)]
  = Ok [S754_finite false 10066330 (-24); S754_finite false 13421773 (-24)].
Proof. vm_compute. reflexivity. Qed.

(** Without a bound table the call fails. *)
Lemma score_unbound NumberOfScores calculateScore h this candidates diffs :
  m_score_data this = NULL →
  score NumberOfScores calculateScore h this candidates diffs
  = Throw (runtime_error "score data not loaded").
Proof. intros E. unfold score, bound_table. rewrite E. reflexivity. Qed.

(** ** Minimum against average *)

(** C5 as stated fails.  Three references with the same score
    11184814 * 2^-24 (about 0.6667): the running sum [3x] is a tie between
    two floats and rounds down to even, and its third rounds down again, so
    the average is one unit in the last place below the minimum. *)
Lemma score_min_le_average_counterexample :
  score_min [two_thirds; two_thirds; two_thirds] 0 3
    = Ok (S754_finite false 11184814 (-24))
  ∧ score_average [two_thirds; two_thirds; two_thirds] 0 3
    = Ok (S754_finite false 11184813 (-24))
  ∧ F32.leb (S754_finite false 11184814 (-24)) (S754_finite false 11184813 (-24))
    = false.
Proof. vm_compute. repeat split. Qed.

(** ** Binary32 rounding *)

Lemma digits2_pos_bounds (p : positive) :
  2 ^ (Zpos (digits2_pos p) - 1) <= Zpos p < 2 ^ Zpos (digits2_pos p).
Proof.
  induction p as [p IH|p IH|]; simpl digits2_pos.
  - rewrite Pos2Z.inj_succ.
    replace (Z.succ (Zpos (digits2_pos p)) - 1) with (Z.succ (Zpos (digits2_pos p) - 1)) by lia.
    rewrite !Z.pow_succ_r by lia. lia.
  - rewrite Pos2Z.inj_succ.
    replace (Z.succ (Zpos (digits2_pos p)) - 1) with (Z.succ (Zpos (digits2_pos p) - 1)) by lia.
    rewrite !Z.pow_succ_r by lia. lia.
  - simpl. lia.
Qed.

Lemma canonical_mantissa_inv (m : positive) (e : Z) :
  canonical_mantissa F32.prec F32.emax m e = true ->
  -149 <= e /\ Zpos (digits2_pos m) <= 24 /\ (-149 < e -> Zpos (digits2_pos m) = 24).
Proof.
  unfold canonical_mantissa, fexp, emin, F32.prec, F32.emax.
  intros H. apply Z.eqb_eq in H. lia.
Qed.

Lemma canonical_mantissa_intro (m : positive) (e : Z) :
  -149 <= e -> Zpos (digits2_pos m) <= 24 -> (-149 < e -> Zpos (digits2_pos m) = 24) ->
  canonical_mantissa F32.prec F32.emax m e = true.
Proof.
  unfold canonical_mantissa, fexp, emin, F32.prec, F32.emax.
  intros. apply Z.eqb_eq. lia.
Qed.

Lemma shr_1_spec (m : Z) (r s : bool) :
  0 <= m ->
  shr_1 {| shr_m := m; shr_r := r; shr_s := s |}
  = {| shr_m := m / 2; shr_r := Z.odd m; shr_s := r || s |}.
Proof.
  intros Hm. rewrite <- Z.div2_div.
  destruct m as [|p|p]; [reflexivity| |lia].
  destruct p; reflexivity.
Qed.

(** an invariant indexed by the number of steps survives [iter_pos] *)
Lemma iter_pos_invariant {A} (f : A -> A) (I : Z -> A -> Prop) :
  (forall k x, 0 <= k -> I k x -> I (k + 1) (f x)) ->
  forall p j x, 0 <= j -> I j x -> I (j + Zpos p) (SpecFloat.iter_pos f p x).
Proof.
  intros Hstep. induction p as [p IH|p IH|]; intros j x Hj Hx; simpl.
  - replace (j + Zpos p~1) with (j + 1 + Zpos p + Zpos p) by lia.
    apply IH; [lia|]. apply IH; [lia|]. apply Hstep; assumption.
  - replace (j + Zpos p~0) with (j + Zpos p + Zpos p) by lia.
    apply IH; [lia|]. apply IH; assumption.
  - apply Hstep; assumption.
Qed.

Lemma shr_invariant_step (m k : Z) (mrs : shr_record) :
  0 <= m -> 0 <= k -> shr_invariant m k mrs -> shr_invariant m (k + 1) (shr_1 mrs).
Proof.
  intros Hm Hk [Hq Hexact]. destruct mrs as [q r s]. simpl in Hq, Hexact.
  assert (Hpow : 0 < 2 ^ k) by (apply Z.pow_pos_nonneg; lia).
  assert (Hq0 : 0 <= q) by (subst q; apply Z.div_pos; lia).
  rewrite shr_1_spec by assumption. unfold shr_invariant. simpl.
  rewrite Z.pow_add_r, Z.pow_1_r by lia. split.
  - subst q. rewrite Z.div_div by lia. reflexivity.
  - intros Hmod.
    assert (Hdiv : m = 2 ^ k * 2 * (m / (2 ^ k * 2))).
    { pose proof (Z.div_mod m (2 ^ k * 2)). lia. }
    assert (Hmodk : m mod 2 ^ k = 0).
    { rewrite Hdiv. rewrite <- Z.mul_assoc, Z.mul_comm. apply Z.mod_mul. lia. }
    destruct (Hexact Hmodk) as [-> ->]. split; [|reflexivity].
    assert (Hqeq : q = 2 * (m / (2 ^ k * 2))).
    { subst q. rewrite Hdiv at 1. rewrite <- Z.mul_assoc, Z.mul_comm.
      rewrite Z.div_mul by lia. reflexivity. }
    rewrite Hqeq. rewrite Z.odd_mul. reflexivity.
Qed.

Lemma shr_spec (m : Z) (e : Z) (n : Z) :
  0 <= m -> 0 <= n ->
  exists mrs, shr {| shr_m := m; shr_r := false; shr_s := false |} e n = (mrs, e + n)
    /\ shr_invariant m n mrs.
Proof.
  intros Hm Hn. destruct n as [|p|p]; [| |lia].
  - eexists. split. { simpl. rewrite Z.add_0_r. reflexivity. }
    split; simpl; [rewrite Z.div_1_r; reflexivity | auto].
  - eexists. split; [reflexivity|].
    change (Zpos p) with (0 + Zpos p).
    apply (iter_pos_invariant shr_1 (shr_invariant m)).
    + intros k x Hk. apply shr_invariant_step; assumption.
    + lia.
    + split; simpl; [rewrite Z.div_1_r; reflexivity | auto].
Qed.

Lemma round_nearest_even_bounds (mrs : shr_record) :
  shr_m mrs <= round_nearest_even (shr_m mrs) (loc_of_shr_record mrs) <= shr_m mrs + 1
  /\ (shr_r mrs = false /\ shr_s mrs = false ->
      round_nearest_even (shr_m mrs) (loc_of_shr_record mrs) = shr_m mrs).
Proof.
  destruct mrs as [q [] []]; simpl; repeat split; try lia;
    try (destruct (Z.even q); lia); intros [? ?]; discriminate.
Qed.

Lemma shr_nonpos (mrs : shr_record) (e n : Z) : n <= 0 -> shr mrs e n = (mrs, e).
Proof. destruct n; [reflexivity | lia | reflexivity]. Qed.

Lemma fexp_eq (k : Z) : fexp F32.prec F32.emax k = Z.max (k - 24) (-149).
Proof. reflexivity. Qed.

Lemma digits_le_24 (p : positive) : Zpos p < 2 ^ 24 -> Zpos (digits2_pos p) <= 24.
Proof.
  intros Hlt. pose proof (digits2_pos_bounds p) as [Hlo _].
  destruct (Z_le_gt_dec (Zpos (digits2_pos p)) 24) as [|Hgt]; [assumption|].
  assert (2 ^ 24 <= 2 ^ (Zpos (digits2_pos p) - 1)) by (apply Z.pow_le_mono_r; lia).
  lia.
Qed.

Lemma digits_ge_24 (p : positive) : 2 ^ 23 <= Zpos p -> 24 <= Zpos (digits2_pos p).
Proof.
  intros Hge. pose proof (digits2_pos_bounds p) as [_ Hhi].
  destruct (Z_le_gt_dec 24 (Zpos (digits2_pos p))) as [|Hgt]; [assumption|].
  assert (2 ^ Zpos (digits2_pos p) <= 2 ^ 23) by (apply Z.pow_le_mono_r; lia).
  lia.
Qed.

(** the renormalisation after rounding: at most one more shift *)
Lemma round_second_shift (s : bool) (M E : Z) :
  0 <= M <= 2 ^ 24 -> -149 <= E -> (-149 < E -> 2 ^ 23 <= M) ->
  round_shape s M E
    (let '(mrs, e) := shr_fexp F32.prec F32.emax M E loc_Exact in
     match shr_m mrs with
     | Z0 => S754_zero s
     | Zpos m => if e <=? F32.emax - F32.prec then S754_finite s m e else S754_infinity s
     | Zneg _ => S754_nan
     end).
Proof.
  intros HM HE Hnormal. unfold shr_fexp. rewrite fexp_eq.
  destruct M as [|p|p]; [| |lia].
  - (* zero *)
    simpl Zdigits2. rewrite shr_nonpos by lia. simpl. left. auto.
  - destruct (Z.eq_dec (Zpos p) (2 ^ 24)) as [Heq|Hne].
    + (* the mantissa overflowed to 2^24 *)
      assert (p = 16777216%positive) as -> by lia.
      change (Zdigits2 (Zpos 16777216)) with 25.
      replace (Z.max (25 + E - 24) (-149) - E) with 1 by lia.
      cbn [shr shr_record_of_loc SpecFloat.iter_pos shr_1 shr_m orb]. right.
      change (F32.emax - F32.prec) with 104.
      destruct (Z.leb_spec (E + 1) 104).
      * right. exists 8388608%positive, (E + 1). split; [reflexivity|].
        split; [apply canonical_mantissa_intro; simpl; lia|].
        replace (E + 1 - E) with 1 by lia. split; [reflexivity | lia].
      * left. split; [lia | reflexivity].
    + assert (Hd : Zpos (digits2_pos p) <= 24) by (apply digits_le_24; lia).
      simpl Zdigits2. rewrite shr_nonpos by lia. simpl. right.
      change (F32.emax - F32.prec) with 104.
      destruct (Z.leb_spec E 104).
      * right. exists p, E. split; [reflexivity|].
        split.
        { apply canonical_mantissa_intro; [lia | lia |].
          intros HE'. pose proof (digits_ge_24 p (Hnormal HE')). lia. }
        rewrite Z.sub_diag. split; [simpl; lia | lia].
      * left. split; [lia | reflexivity].
Qed.

Lemma binary_round_aux_spec (s : bool) (m e : Z) :
  0 < m ->
  let E := fexp F32.prec F32.emax (Zdigits2 m + e) in
  e <= E ->
  exists M, m / 2 ^ (E - e) <= M <= m / 2 ^ (E - e) + 1
    /\ (m mod 2 ^ (E - e) = 0 -> M = m / 2 ^ (E - e))
    /\ round_shape s M E (binary_round_aux F32.prec F32.emax s m e loc_Exact).
Proof.
  intros Hm E HE.
  destruct m as [|p|p]; try lia.
  pose proof (digits2_pos_bounds p) as [Hlo Hhi].
  assert (HEdef : E = Z.max (Zpos (digits2_pos p) + e - 24) (-149)) by reflexivity.
  unfold binary_round_aux. unfold shr_fexp at 1. fold E. simpl shr_record_of_loc.
  destruct (shr_spec (Zpos p) e (E - e)) as (mrs & Hshr & Hq & Hexact); [lia | lia |].
  rewrite Hshr. replace (e + (E - e)) with E by lia.
  pose proof (round_nearest_even_bounds mrs) as [Hrne Hrne_exact].
  set (M := round_nearest_even (shr_m mrs) (loc_of_shr_record mrs)) in *.
  assert (Hpow : 0 < 2 ^ (E - e)) by (apply Z.pow_pos_nonneg; lia).
  assert (Hq24 : Zpos p / 2 ^ (E - e) < 2 ^ 24).
  { apply Z.div_lt_upper_bound; [lia|].
    rewrite <- Z.pow_add_r by lia.
    eapply Z.lt_le_trans; [exact Hhi|]. apply Z.pow_le_mono_r; lia. }
  assert (Hq0 : 0 <= Zpos p / 2 ^ (E - e)) by (apply Z.div_pos; lia).
  exists M. rewrite <- Hq. split; [exact Hrne|]. split.
  - intros Hmod. apply Hrne_exact, Hexact, Hmod.
  - apply round_second_shift; [lia | lia |].
    intros Hnormal.
    assert (Hn : E - e = Zpos (digits2_pos p) - 24) by lia.
    assert (2 ^ 23 <= shr_m mrs); [|lia].
    rewrite Hq, Hn. apply Z.div_le_lower_bound; [lia|].
    rewrite <- Z.pow_add_r by lia.
    replace (Zpos (digits2_pos p) - 24 + 23) with (Zpos (digits2_pos p) - 1) by lia.
    exact Hlo.
Qed.

Lemma nat_iter_xO (n : nat) (m : positive) :
  Zpos (Nat.iter n xO m) = Zpos m * 2 ^ Z.of_nat n
  /\ Zpos (digits2_pos (Nat.iter n xO m)) = Zpos (digits2_pos m) + Z.of_nat n.
Proof.
  induction n as [|n [IHv IHd]].
  - simpl. split; lia.
  - rewrite Nat2Z.inj_succ, Z.pow_succ_r by lia. simpl Nat.iter. split.
    + rewrite Pos2Z.inj_xO, IHv. ring.
    + simpl digits2_pos. rewrite Pos2Z.inj_succ, IHd. lia.
Qed.

Lemma shl_align_spec (m : positive) (e e' : Z) :
  (e' < e ->
   exists mz, shl_align m e e' = (mz, e')
     /\ Zpos mz = Zpos m * 2 ^ (e - e')
     /\ Zpos (digits2_pos mz) = Zpos (digits2_pos m) + (e - e'))
  /\ (e <= e' -> shl_align m e e' = (m, e)).
Proof.
  unfold shl_align. split; intros H.
  - destruct (e' - e) as [|d|d] eqn:Hd; try lia.
    exists (Pos.iter xO m d). split; [reflexivity|].
    rewrite Pos2Nat.inj_iter.
    destruct (nat_iter_xO (Pos.to_nat d) m) as [Hv Hdig].
    rewrite positive_nat_Z in Hv, Hdig.
    replace (e - e') with (Zpos d) by lia. auto.
  - destruct (e' - e) as [|d|d] eqn:Hd; try lia; reflexivity.
Qed.

Lemma binary_round_spec (s : bool) (m : positive) (e : Z) :
  -150 <= e ->
  let E := fexp F32.prec F32.emax (Zpos (digits2_pos m) + e) in
  let V := Zpos m * 2 ^ (e + 150) in
  let U := 2 ^ (E + 150) in
  exists M, V / U <= M <= V / U + 1
    /\ (V mod U = 0 -> M = V / U)
    /\ round_shape s M E (binary_round F32.prec F32.emax s m e).
Proof.
  intros He E V U.
  assert (HE : E = Z.max (Zpos (digits2_pos m) + e - 24) (-149)) by reflexivity.
  unfold binary_round. fold E.
  destruct (shl_align_spec m e E) as [Hshl Hnoshl].
  assert (HU : 0 < U) by (apply Z.pow_pos_nonneg; lia).
  destruct (Z_lt_le_dec E e) as [Hlt|Hle].
  - destruct (Hshl Hlt) as (mz & -> & Hmz & Hdz).
    destruct (binary_round_aux_spec s (Zpos mz) E) as (M & HM & Hexact & Hshape);
      [lia | |].
    { simpl Zdigits2. rewrite Hdz, fexp_eq. lia. }
    simpl Zdigits2 in *. rewrite Hdz in *.
    replace (fexp F32.prec F32.emax (Zpos (digits2_pos m) + (e - E) + E)) with E in *
      by (rewrite fexp_eq; lia).
    rewrite Z.sub_diag in *. simpl (2 ^ 0) in *. rewrite Z.div_1_r in *.
    assert (HV : V = Zpos mz * U).
    { unfold V, U. rewrite Hmz, <- Z.mul_assoc, <- Z.pow_add_r by lia.
      f_equal. f_equal. lia. }
    exists M. rewrite HV, Z.div_mul by lia.
    assert (M = Zpos mz) by (apply Hexact, Z.mod_1_r).
    split; [lia|]. split; [intros _; assumption | assumption].
  - rewrite (Hnoshl Hle).
    destruct (binary_round_aux_spec s (Zpos m) e) as (M & HM & Hexact & Hshape);
      [lia | simpl Zdigits2; fold E; lia |].
    simpl Zdigits2 in *. fold E in HM, Hexact, Hshape.
    assert (Hp : 0 < 2 ^ (e + 150)) by (apply Z.pow_pos_nonneg; lia).
    assert (Hn : 0 < 2 ^ (E - e)) by (apply Z.pow_pos_nonneg; lia).
    assert (HUeq : U = 2 ^ (E - e) * 2 ^ (e + 150)).
    { unfold U. rewrite <- Z.pow_add_r by lia. f_equal. lia. }
    assert (Hdiv : V / U = Zpos m / 2 ^ (E - e)).
    { unfold V. rewrite HUeq. apply Z.div_mul_cancel_r; lia. }
    assert (Hmod : V mod U = (Zpos m mod 2 ^ (E - e)) * 2 ^ (e + 150)).
    { unfold V. rewrite HUeq. apply Z.mul_mod_distr_r; lia. }
    exists M. rewrite Hdiv. split; [lia|]. split; [|assumption].
    intros Hz. apply Hexact. rewrite Hmod in Hz. nia.
Qed.

Lemma pow2_lt_double (a b : Z) : 0 <= a < b -> 2 * 2 ^ a <= 2 ^ b.
Proof.
  intros H. replace (2 * 2 ^ a) with (2 ^ (a + 1)) by (rewrite Z.pow_add_r; lia).
  apply Z.pow_le_mono_r; lia.
Qed.

Lemma canonical_mantissa_bounds (m : positive) (e : Z) :
  canonical_mantissa F32.prec F32.emax m e = true ->
  -149 <= e /\ Zpos m < 2 ^ 24 /\ (-149 < e -> 2 ^ 23 <= Zpos m).
Proof.
  intros H. apply canonical_mantissa_inv in H as (He & Hd & Hn).
  pose proof (digits2_pos_bounds m) as [Hlo Hhi].
  split; [assumption|]. split.
  - eapply Z.lt_le_trans; [exact Hhi|]. apply Z.pow_le_mono_r; lia.
  - intros He'. rewrite (Hn He') in Hlo. exact Hlo.
Qed.

Lemma round_lower_bound (s : bool) (m : positive) (e F : Z) :
  -150 <= e -> representable F ->
  F <= cond_Zopp s (Zpos m * 2 ^ (e + 150)) ->
  let r := binary_round F32.prec F32.emax s m e in
  r = S754_infinity s \/ (F32.canonical r = true /\ F <= F32.val r).
Proof.
  intros He HF Hle r.
  destruct (binary_round_spec s m e He) as (M & HM & Hexact & Hshape).
  fold r in Hshape.
  pose proof (digits2_pos_bounds m) as [Hlo Hhi].
  set (d := Zpos (digits2_pos m)) in *.
  set (E := fexp F32.prec F32.emax (d + e)) in *.
  assert (HE : E = Z.max (d + e - 24) (-149)) by reflexivity.
  set (P := 2 ^ (e + 150)) in *.
  set (V := Zpos m * P) in *.
  set (U := 2 ^ (E + 150)) in *.
  assert (HP : 0 < P) by (apply Z.pow_pos_nonneg; lia).
  assert (HU : 0 < U) by (apply Z.pow_pos_nonneg; lia).
  assert (HV : 0 < V) by (unfold V; lia).
  (* the value lies below 2^24 units, and above 2^23 units when normal *)
  assert (K1 : V < 2 ^ 24 * U).
  { unfold V, U, P. rewrite <- Z.pow_add_r by lia.
    apply Z.lt_le_trans with (2 ^ d * 2 ^ (e + 150)).
    - apply Z.mul_lt_mono_pos_r; [apply Z.pow_pos_nonneg|]; lia.
    - assert (0 < d) by (unfold d; lia).
      rewrite <- Z.pow_add_r by lia. apply Z.pow_le_mono_r; lia. }
  assert (K2 : -149 < E -> 2 ^ 23 * U <= V).
  { intros Hn. unfold V, U, P. rewrite <- Z.pow_add_r by lia.
    apply Z.le_trans with (2 ^ (d - 1) * 2 ^ (e + 150)).
    - assert (0 < d) by (unfold d; lia).
      rewrite <- Z.pow_add_r by lia. apply Z.pow_le_mono_r; lia.
    - apply Z.mul_le_mono_nonneg_r; lia. }
  pose proof (Z.div_mod V U ltac:(lia)) as Hdm.
  pose proof (Z.mod_pos_bound V U HU) as Hmb.
  set (q := V / U) in *. set (rm := V mod U) in *.
  assert (Hq24 : q < 2 ^ 24) by nia.
  assert (Hq23 : -149 < E -> 2 ^ 23 <= q) by (intros Hn; specialize (K2 Hn); nia).
  (* what the bound looks like *)
  assert (HFcases : F <= 0 /\ (s = false \/ F = 0 -> False) \/ True) by auto.
  clear HFcases.
  destruct Hshape as [[HM0 Hr] | [[HMpos Hr] | (m' & e' & Hr & Hcan & Hval & HEe')]].
  - (* rounded to zero *)
    right. rewrite Hr. simpl. split; [reflexivity|].
    destruct s; simpl in Hle; [lia|].
    destruct HF as [-> | (mf & ef & Hcf & Habs)]; [lia|].
    destruct (Z_le_gt_dec F 0) as [|HFpos]; [assumption|].
    apply canonical_mantissa_bounds in Hcf as (Hef & Hmf24 & Hmf23).
    assert (2 <= 2 ^ (ef + 150)).
    { change 2 with (2 ^ 1) at 1. apply Z.pow_le_mono_r; lia. }
    assert (HE' : E = -149) by (destruct (Z.eq_dec E (-149)); [assumption | specialize (Hq23 ltac:(lia)); lia]).
    assert (U = 2) by (unfold U; rewrite HE'; reflexivity).
    rewrite Z.abs_eq in Habs by lia. nia.
  - left. assumption.
  - right. rewrite Hr. cbn [F32.val F32.canonical]. split; [assumption|].
    assert (Hres : Zpos m' * 2 ^ (e' + 150) = M * U).
    { rewrite <- Hval. unfold U. rewrite <- Z.mul_assoc, <- Z.pow_add_r by lia.
      f_equal. f_equal. lia. }
    rewrite Hres.
    destruct HF as [-> | (mf & ef & Hcf & Habs)].
    { destruct s; cbn [cond_Zopp] in *; nia. }
    apply canonical_mantissa_bounds in Hcf as (Hef & Hmf24 & Hmf23).
    set (UF := 2 ^ (ef + 150)) in *.
    assert (HUF : 0 < UF) by (apply Z.pow_pos_nonneg; lia).
    assert (Hrel : (ef = E /\ UF = U) \/ (ef < E /\ 2 * UF <= U) \/ (E < ef /\ 2 * U <= UF)).
    { destruct (Z.lt_trichotomy ef E) as [Hc|[Hc|Hc]].
      - right. left. split; [assumption|]. apply pow2_lt_double. lia.
      - left. split; [assumption|]. unfold UF, U. rewrite Hc. reflexivity.
      - right. right. split; [assumption|]. apply pow2_lt_double. lia. }
    destruct s; cbn [cond_Zopp] in Hle |- *.
    + (* negative: the magnitude is bounded from above *)
      assert (HFneg : F < 0) by lia.
      rewrite Z.abs_neq in Habs by lia.
      assert (HG : V <= Zpos mf * UF) by lia.
      assert (M * U <= Zpos mf * UF); [|lia].
      destruct Hrel as [[Hc HUeq] | [[Hc HUle] | [Hc HUle]]].
      * rewrite HUeq in *.
        destruct (Z.eq_dec rm 0) as [Hz|Hnz].
        { rewrite (Hexact Hz). nia. }
        { assert (q < Zpos mf) by nia. nia. }
      * specialize (K2 ltac:(lia)). nia.
      * specialize (Hmf23 ltac:(lia)). nia.
    + (* positive: the magnitude is bounded from below *)
      destruct (Z_le_gt_dec F 0) as [|HFpos]; [nia|].
      rewrite Z.abs_eq in Habs by lia.
      assert (HG : Zpos mf * UF <= V) by lia.
      assert (Zpos mf * UF <= M * U); [|lia].
      destruct Hrel as [[Hc HUeq] | [[Hc HUle] | [Hc HUle]]].
      * rewrite HUeq in *. assert (Zpos mf <= q) by nia. nia.
      * specialize (Hq23 ltac:(lia)). nia.
      * specialize (Hmf23 ltac:(lia)). nia.
Qed.

Lemma canonical_order (m1 m2 : positive) (e1 e2 : Z) :
  canonical_mantissa F32.prec F32.emax m1 e1 = true ->
  canonical_mantissa F32.prec F32.emax m2 e2 = true ->
  Zpos m1 * 2 ^ (e1 + 150) <= Zpos m2 * 2 ^ (e2 + 150) ->
  e1 < e2 \/ (e1 = e2 /\ (m1 <= m2)%positive).
Proof.
  intros H1 H2 Hle.
  apply canonical_mantissa_bounds in H1 as (He1 & Hm1 & Hn1).
  apply canonical_mantissa_bounds in H2 as (He2 & Hm2 & Hn2).
  assert (HP2 : 0 < 2 ^ (e2 + 150)) by (apply Z.pow_pos_nonneg; lia).
  destruct (Z.lt_trichotomy e1 e2) as [Hc|[Hc|Hc]]; [left; assumption| |].
  - right. split; [assumption|]. subst e2.
    apply Z.mul_le_mono_pos_r in Hle; [|assumption]. lia.
  - exfalso. specialize (Hn1 ltac:(lia)).
    pose proof (pow2_lt_double (e2 + 150) (e1 + 150) ltac:(lia)). nia.
Qed.

Lemma SFleb_of_val (u v : spec_float) :
  F32.canonical u = true -> F32.canonical v = true ->
  F32.val u <= F32.val v -> SFleb u v = true.
Proof.
  intros Hu Hv Hle.
  destruct u as [su|su| |su mu eu], v as [sv|sv| |sv mv ev]; try discriminate;
    cbn [F32.val F32.canonical] in *; unfold SFleb, SFcompare.
  - reflexivity.
  - pose proof (canonical_mantissa_inv _ _ Hv) as (? & _).
    assert (0 < Zpos mv * 2 ^ (ev + 150)).
    { apply Z.mul_pos_pos; [lia | apply Z.pow_pos_nonneg; lia]. }
    destruct sv; cbn [cond_Zopp] in Hle; [lia | reflexivity].
  - pose proof (canonical_mantissa_inv _ _ Hu) as (? & _).
    assert (0 < Zpos mu * 2 ^ (eu + 150)).
    { apply Z.mul_pos_pos; [lia | apply Z.pow_pos_nonneg; lia]. }
    destruct su; cbn [cond_Zopp] in Hle; [reflexivity | lia].
  - pose proof (canonical_mantissa_inv _ _ Hu) as (? & _).
    pose proof (canonical_mantissa_inv _ _ Hv) as (? & _).
    assert (0 < Zpos mu * 2 ^ (eu + 150)).
    { apply Z.mul_pos_pos; [lia | apply Z.pow_pos_nonneg; lia]. }
    assert (0 < Zpos mv * 2 ^ (ev + 150)).
    { apply Z.mul_pos_pos; [lia | apply Z.pow_pos_nonneg; lia]. }
    change (Pos.compare_cont Eq mu mv) with (Pos.compare mu mv).
    destruct su, sv; cbn [cond_Zopp] in Hle; try reflexivity; try lia.
    + destruct (canonical_order mv mu ev eu Hv Hu ltac:(lia)) as [Hlt | [-> Hm]].
      * rewrite (proj2 (Z.compare_gt_iff eu ev)) by lia. reflexivity.
      * rewrite Z.compare_refl.
        destruct (Pos.compare_spec mu mv); try reflexivity. lia.
    + destruct (canonical_order mu mv eu ev Hu Hv ltac:(lia)) as [Hlt | [-> Hm]].
      * rewrite (proj2 (Z.compare_lt_iff eu ev)) by lia. reflexivity.
      * rewrite Z.compare_refl.
        destruct (Pos.compare_spec mu mv); try reflexivity. lia.
Qed.

Lemma SFcompare_refl (x : spec_float) :
  F32.is_nan x = false -> SFcompare x x = Some Eq.
Proof.
  destruct x as [s|s| |s m e]; try discriminate; intros _; simpl.
  - reflexivity.
  - destruct s; reflexivity.
  - change (Pos.compare_cont Eq m m) with (Pos.compare m m).
    rewrite Z.compare_refl, Pos.compare_refl. destruct s; reflexivity.
Qed.

Lemma SFcompare_antisym (x y : spec_float) :
  SFcompare y x = option_map CompOpp (SFcompare x y).
Proof.
  destruct x as [sx|sx| |sx mx ex], y as [sy|sy| |sy my ey]; simpl;
    try reflexivity; try (destruct sx; reflexivity); try (destruct sy; reflexivity);
    try (destruct sx, sy; reflexivity).
  change (Pos.compare_cont Eq my mx) with (Pos.compare my mx).
  change (Pos.compare_cont Eq mx my) with (Pos.compare mx my).
  rewrite (Z.compare_antisym ex ey), (Pos.compare_antisym mx my).
  destruct sx, sy; try reflexivity;
    destruct (ex ?= ey); simpl; try reflexivity;
    destruct (mx ?= my)%positive; reflexivity.
Qed.

Lemma SFleb_trans (x y z : spec_float) :
  SFleb x y = true -> SFleb y z = true -> SFleb x z = true.
Proof.
  unfold SFleb.
  destruct x as [sx|sx| |sx mx ex], y as [sy|sy| |sy my ey], z as [sz|sz| |sz mz ez];
    simpl; try discriminate; try reflexivity;
    try (destruct sx; try discriminate; try reflexivity;
         destruct sy; try discriminate; try reflexivity;
         destruct sz; try discriminate; reflexivity);
    try (destruct sx, sy; try discriminate; reflexivity);
    try (destruct sy, sz; try discriminate; reflexivity);
    try (destruct sx, sz; try discriminate; reflexivity).
  all: change (Pos.compare_cont Eq mx my) with (Pos.compare mx my);
       change (Pos.compare_cont Eq my mz) with (Pos.compare my mz);
       change (Pos.compare_cont Eq mx mz) with (Pos.compare mx mz).
  all: destruct sx, sy, sz; try discriminate; try reflexivity.
  all: destruct (Z.compare_spec ex ey); try discriminate;
       destruct (Z.compare_spec ey ez); try discriminate;
       destruct (Z.compare_spec ex ez); try reflexivity; try lia;
       subst;
       destruct (Pos.compare_spec mx my); try discriminate;
       destruct (Pos.compare_spec my mz); try discriminate;
       destruct (Pos.compare_spec mx mz); try reflexivity; try lia;
       simpl; intros; try discriminate; try lia.
Qed.

Lemma representable_val (x : spec_float) :
  F32.canonical x = true -> representable (F32.val x).
Proof.
  destruct x as [s|s| |s m e]; try discriminate; intros Hc; [left; reflexivity|].
  right. exists m, e. split; [exact Hc|].
  apply canonical_mantissa_inv in Hc as (He & _).
  assert (0 < Zpos m * 2 ^ (e + 150)).
  { apply Z.mul_pos_pos; [lia | apply Z.pow_pos_nonneg; lia]. }
  cbn [F32.val]. destruct s; cbn [cond_Zopp]; lia.
Qed.

Lemma representable_double (x : spec_float) :
  F32.canonical x = true -> representable (2 * F32.val x).
Proof.
  destruct x as [s|s| |s m e]; try discriminate; intros Hc; [left; reflexivity|].
  cbn [F32.canonical F32.val] in *.
  pose proof (canonical_mantissa_inv _ _ Hc) as (He & Hd & Hn).
  assert (HP : 0 < 2 ^ (e + 150)) by (apply Z.pow_pos_nonneg; lia).
  assert (Habs : Z.abs (2 * cond_Zopp s (Zpos m * 2 ^ (e + 150)))
                 = 2 * (Zpos m * 2 ^ (e + 150))).
  { destruct s; cbn [cond_Zopp]; lia. }
  right. destruct (Z.eq_dec (Zpos (digits2_pos m)) 24) as [Hnormal|Hsub].
  - exists m, (e + 1). split.
    + apply canonical_mantissa_intro; lia.
    + rewrite Habs. replace (e + 1 + 150) with (Z.succ (e + 150)) by lia.
      rewrite Z.pow_succ_r by lia. generalize (2 ^ (e + 150)). intros; lia.
  - exists (m~0)%positive, e. split.
    + apply canonical_mantissa_intro; [lia | |].
      * simpl digits2_pos. rewrite Pos2Z.inj_succ. lia.
      * intros He'. specialize (Hn He'). lia.
    + rewrite Habs, Pos2Z.inj_xO. generalize (2 ^ (e + 150)). intros; lia.
Qed.

Lemma shl_align_fst (m : positive) (e ez : Z) :
  ez <= e -> Zpos (fst (shl_align m e ez)) = Zpos m * 2 ^ (e - ez).
Proof.
  intros Hle. destruct (shl_align_spec m e ez) as [Hshl Hno].
  destruct (Z_lt_le_dec ez e) as [Hlt|Hge].
  - destruct (Hshl Hlt) as (mz & -> & Hmz & _). exact Hmz.
  - rewrite (Hno Hge). replace (e - ez) with 0 by lia. simpl. lia.
Qed.

(** a representable lower bound of the exact sum is a lower bound of the
    rounded sum *)
Lemma add_lower_bound (x y : spec_float) (F : Z) :
  F32.canonical x = true -> F32.canonical y = true ->
  representable F -> F <= F32.val x + F32.val y ->
  let t := SFadd F32.prec F32.emax x y in
  t = pinf \/ t = ninf \/ (F32.canonical t = true /\ F <= F32.val t).
Proof.
  intros Hx Hy HF Hle t. subst t.
  destruct x as [sx|sx| |sx mx ex], y as [sy|sy| |sy my ey]; try discriminate.
  - right. right. cbn [F32.val] in Hle.
    destruct sx, sy; simpl; split; try reflexivity; lia.
  - right. right. cbn [SFadd]. split; [assumption|]. cbn [F32.val] in *. lia.
  - right. right. cbn [SFadd]. split; [assumption|]. cbn [F32.val] in *. lia.
  - cbn [F32.canonical F32.val] in *.
    pose proof (canonical_mantissa_inv _ _ Hx) as (Hex & _).
    pose proof (canonical_mantissa_inv _ _ Hy) as (Hey & _).
    cbn [SFadd]. set (ez := Z.min ex ey).
    assert (Hez : -149 <= ez /\ ez <= ex /\ ez <= ey) by (unfold ez; lia).
    rewrite (shl_align_fst mx ex ez), (shl_align_fst my ey ez) by lia.
    set (M := cond_Zopp sx (Zpos mx * 2 ^ (ex - ez)) + cond_Zopp sy (Zpos my * 2 ^ (ey - ez))).
    assert (HM : M * 2 ^ (ez + 150)
                 = cond_Zopp sx (Zpos mx * 2 ^ (ex + 150))
                   + cond_Zopp sy (Zpos my * 2 ^ (ey + 150))).
    { unfold M.
      replace (ex + 150) with ((ex - ez) + (ez + 150)) by lia.
      replace (ey + 150) with ((ey - ez) + (ez + 150)) by lia.
      rewrite (Z.pow_add_r 2 (ex - ez) (ez + 150)) by lia.
      rewrite (Z.pow_add_r 2 (ey - ez) (ez + 150)) by lia.
      generalize (2 ^ (ex - ez)) (2 ^ (ey - ez)) (2 ^ (ez + 150)). intros.
      destruct sx, sy; cbn [cond_Zopp]; lia. }
    destruct M as [|p|p] eqn:EM; cbn [binary_normalize].
    + right. right. split; [reflexivity|]. cbn [F32.val]. lia.
    + destruct (round_lower_bound false p ez F) as [Hinf | Hfin];
        [lia | assumption | cbn [cond_Zopp]; lia | |].
      * left. exact Hinf.
      * right. right. exact Hfin.
    + destruct (round_lower_bound true p ez F) as [Hinf | Hfin];
        [lia | assumption | cbn [cond_Zopp]; lia | |].
      * right. left. exact Hinf.
      * right. right. exact Hfin.
Qed.

Lemma div_eucl_pair (a b : Z) : Z.div_eucl a b = (a / b, a mod b).
Proof. unfold Z.div, Z.modulo. destruct (Z.div_eucl a b). reflexivity. Qed.

Lemma shr_fexp_noshift (m e : Z) (loc : location) :
  fexp F32.prec F32.emax (Zdigits2 m + e) <= e ->
  shr_fexp F32.prec F32.emax m e loc = (shr_record_of_loc m loc, e).
Proof. intros H. unfold shr_fexp. apply shr_nonpos. lia. Qed.

Lemma shr_fexp_shift1 (m e : Z) :
  0 <= m ->
  fexp F32.prec F32.emax (Zdigits2 m + e) = e + 1 ->
  shr_fexp F32.prec F32.emax m e loc_Exact
  = ({| shr_m := m / 2; shr_r := Z.odd m; shr_s := false |}, e + 1).
Proof.
  intros Hm H. unfold shr_fexp. rewrite H.
  replace (e + 1 - e) with 1 by lia. cbn [shr shr_record_of_loc SpecFloat.iter_pos].
  rewrite shr_1_spec by assumption. reflexivity.
Qed.

(** rounding [m * 2^e] after one exact halving step of the representation *)
Lemma binary_round_aux_halve (s : bool) (m : positive) (e : Z) :
  fexp F32.prec F32.emax (Zdigits2 (Zpos m) + e) = e + 1 ->
  fexp F32.prec F32.emax (Zdigits2 (Zpos m / 2) + (e + 1)) <= e + 1 ->
  binary_round_aux F32.prec F32.emax s (Zpos m) e loc_Exact
  = binary_round_aux F32.prec F32.emax s (Zpos m / 2) (e + 1)
      (if Z.odd (Zpos m) then loc_Inexact Eq else loc_Exact).
Proof.
  intros H1 H2. unfold binary_round_aux.
  rewrite (shr_fexp_shift1 (Zpos m) e) by (lia || assumption).
  rewrite (shr_fexp_noshift (Zpos m / 2) (e + 1)) by assumption.
  destruct (Z.odd (Zpos m)); reflexivity.
Qed.

Lemma binary_round_noalign (s : bool) (m : positive) (e : Z) :
  e <= fexp F32.prec F32.emax (Zpos (digits2_pos m) + e) ->
  binary_round F32.prec F32.emax s m e
  = binary_round_aux F32.prec F32.emax s (Zpos m) e loc_Exact.
Proof.
  intros H. unfold binary_round.
  destruct (shl_align_spec m e (fexp F32.prec F32.emax (Zpos (digits2_pos m) + e)))
    as [_ Hno].
  rewrite (Hno H). reflexivity.
Qed.

Lemma Zpos_xO_half (m : positive) : Zpos m~0 / 2 = Zpos m.
Proof. rewrite Pos2Z.inj_xO, Z.mul_comm. apply Z.div_mul. lia. Qed.

(** dividing by 1 or by 2 rounds the exactly rescaled operand *)
Lemma SFdiv_pow2 (s : bool) (m : positive) (e k : Z) :
  canonical_mantissa F32.prec F32.emax m e = true -> k = 0 \/ k = 1 ->
  SFdiv F32.prec F32.emax (S754_finite s m e) (S754_finite false 8388608 (k - 23))
  = binary_round F32.prec F32.emax s m (e - k).
Proof.
  intros Hc Hk. pose proof (canonical_mantissa_inv _ _ Hc) as (He & Hd & Hn).
  cbn [SFdiv]. rewrite xorb_false_r. unfold SFdiv_core_binary.
  change (Zdigits2 8388608) with 24. cbn [Zdigits2].
  set (d := Zpos (digits2_pos m)) in *.
  rewrite div_eucl_pair.
  destruct (Z_le_gt_dec (-149) (e - k - 1)) as [Hbig|Hsmall].
  - (* the quotient is normal *)
    assert (Hd24 : d = 24) by (apply Hn; lia).
    replace (Z.min (fexp F32.prec F32.emax (d + e - (24 + (k - 23)))) (e - (k - 23)))
      with (e - k - 1) by (rewrite fexp_eq; lia).
    replace (e - (k - 23) - (e - k - 1)) with 24 by lia.
    rewrite Z.shiftl_mul_pow2 by lia.
    replace (Zpos m * 2 ^ 24) with (Zpos m~0 * 8388608)
      by (rewrite Pos2Z.inj_xO; change (2 ^ 24) with 16777216; lia).
    rewrite Z.div_mul, Z.mod_mul by lia.
    change (new_location 8388608 0) with loc_Exact.
    rewrite binary_round_noalign by (fold d; rewrite fexp_eq; lia).
    rewrite binary_round_aux_halve.
    + rewrite Zpos_xO_half.
      replace (e - k - 1 + 1) with (e - k) by lia. reflexivity.
    + cbn [Zdigits2 digits2_pos]. rewrite Pos2Z.inj_succ. fold d.
      rewrite fexp_eq. lia.
    + rewrite Zpos_xO_half.
      cbn [Zdigits2]. fold d. rewrite fexp_eq. lia.
  - destruct (Z.eq_dec (e - k) (-149)) as [Hek|Hek].
    + (* the operand is already at the least exponent *)
      replace (Z.min (fexp F32.prec F32.emax (d + e - (24 + (k - 23)))) (e - (k - 23)))
        with (-149) by (rewrite fexp_eq; lia).
      replace (e - (k - 23) - -149) with 23 by lia.
      rewrite Z.shiftl_mul_pow2 by lia. change (2 ^ 23) with 8388608.
      rewrite Z.div_mul, Z.mod_mul by lia.
      change (new_location 8388608 0) with loc_Exact.
      rewrite binary_round_noalign by (fold d; rewrite fexp_eq; lia).
      rewrite Hek. reflexivity.
    + (* halving a number at the least exponent *)
      assert (k = 1 /\ e = -149) as [-> ->] by lia.
      replace (Z.min (fexp F32.prec F32.emax (d + -149 - (24 + (1 - 23)))) (-149 - (1 - 23)))
        with (-149) by (rewrite fexp_eq; lia).
      change (-149 - (1 - 23) - -149) with 22.
      rewrite Z.shiftl_mul_pow2 by lia. change (2 ^ 22) with 4194304.
      replace (Zpos m * 4194304 / 8388608) with (Zpos m / 2)
        by (change 8388608 with (2 * 4194304); symmetry;
            apply Z.div_mul_cancel_r; lia).
      replace ((Zpos m * 4194304) mod 8388608) with ((Zpos m mod 2) * 4194304)
        by (change 8388608 with (2 * 4194304); symmetry;
            apply Z.mul_mod_distr_r; lia).
      rewrite (Zmod_odd (Zpos m)).
      replace ((if Z.odd (Zpos m) then 1 else 0) * 4194304)
        with (if Z.odd (Zpos m) then 4194304 else 0)
        by (destruct (Z.odd (Zpos m)); reflexivity).
      replace (new_location 8388608 (if Z.odd (Zpos m) then 4194304 else 0))
        with (if Z.odd (Zpos m) then loc_Inexact Eq else loc_Exact)
        by (destruct (Z.odd (Zpos m)); reflexivity).
      rewrite binary_round_noalign by (fold d; rewrite fexp_eq; lia).
      change (-149 - 1) with (-150).
      rewrite binary_round_aux_halve; [reflexivity | |].
      * cbn [Zdigits2]. fold d. rewrite fexp_eq. lia.
      * assert (Hhalf : 0 <= Zpos m / 2 < 2 ^ 23).
        { pose proof (digits2_pos_bounds m) as [_ Hhi]. fold d in Hhi.
          assert (2 ^ d <= 2 ^ 24) by (apply Z.pow_le_mono_r; lia).
          split; [apply Z.div_pos; lia|].
          apply Z.div_lt_upper_bound; [lia|]. change (2 * 2 ^ 23) with (2 ^ 24). lia. }
        destruct (Zpos m / 2) as [|q|q] eqn:Eq; [| |lia].
        { rewrite fexp_eq. cbn [Zdigits2]. lia. }
        { cbn [Zdigits2]. pose proof (digits_le_24 q ltac:(lia)).
          rewrite fexp_eq. lia. }
Qed.

Lemma div_pow2_lower_bound (t : spec_float) (k F : Z) :
  F32.canonical t = true -> k = 0 \/ k = 1 -> representable F ->
  2 ^ k * F <= F32.val t ->
  let a := SFdiv F32.prec F32.emax t (S754_finite false 8388608 (k - 23)) in
  a = pinf \/ a = ninf \/ (F32.canonical a = true /\ F <= F32.val a).
Proof.
  intros Ht Hk HF Hle a. subst a.
  destruct t as [s|s| |s m e]; try discriminate.
  - right. right. cbn [SFdiv F32.canonical F32.val] in *. split; [reflexivity|].
    destruct Hk as [-> | ->];
      [change (2 ^ 0) with 1 in Hle | change (2 ^ 1) with 2 in Hle]; lia.
  - cbn [F32.canonical F32.val] in *.
    pose proof (canonical_mantissa_inv _ _ Ht) as (He & _).
    rewrite (SFdiv_pow2 s m e k Ht Hk).
    destruct (round_lower_bound s m (e - k) F) as [Hinf | Hfin]; [lia | assumption | | |].
    + replace (e + 150) with (k + (e - k + 150)) in Hle by lia.
      rewrite Z.pow_add_r in Hle by lia.
      assert (0 < 2 ^ k) by (apply Z.pow_pos_nonneg; lia).
      destruct s; cbn [cond_Zopp] in *; nia.
    + rewrite Hinf. destruct s; auto.
    + right. right. exact Hfin.
Qed.

(** ** Minimum against average, for one or two scores *)

Lemma canonical_not_nan (x : F32.t) :
  F32.canonical x = true → F32.is_nan x = false.
Proof. destruct x; simpl; congruence. Qed.

Lemma valid_finite_canonical (x : F32.t) :
  F32.valid x = true → F32.is_finite x = true → F32.canonical x = true.
Proof.
  destruct x as [s|s| |s m e]; simpl; try congruence.
  unfold bounded. intros Hb _. apply andb_prop in Hb. tauto.
Qed.

Lemma SFleb_pinf (x : F32.t) : F32.canonical x = true → SFleb x pinf = true.
Proof. destruct x as [s|s| |s m e]; simpl; try congruence; reflexivity. Qed.

Lemma SFcompare_total (x y : F32.t) :
  F32.is_nan x = false → F32.is_nan y = false → ∃ c, SFcompare x y = Some c.
Proof.
  destruct x as [sx|sx| |sx mx ex], y as [sy|sy| |sy my ey]; simpl;
    try congruence; intros _ _; eexists; reflexivity.
Qed.

(** one iteration of the minimum loop *)
Lemma min_step (x lo : F32.t) :
  F32.is_nan x = false → F32.is_nan lo = false →
  let lo' := if F32.ltb x lo then x else lo in
  F32.is_nan lo' = false ∧ F32.leb lo' x = true ∧ F32.leb lo' lo = true.
Proof.
  intros Hx Hlo. unfold F32.ltb, F32.leb, SFltb, SFleb.
  pose proof (SFcompare_antisym x lo) as Hanti.
  pose proof (SFcompare_refl x Hx) as Hrx.
  pose proof (SFcompare_refl lo Hlo) as Hrlo.
  destruct (SFcompare_total x lo Hx Hlo) as [c Hc].
  rewrite Hc in *. simpl in Hanti.
  destruct c; cbn zeta; rewrite ?Hrx, ?Hrlo, ?Hc, ?Hanti; simpl; auto.
Qed.

Lemma of_Z_1 : F32.of_Z 1 = S754_finite false 8388608 (0 - 23).
Proof. reflexivity. Qed.

Lemma of_Z_2 : F32.of_Z 2 = S754_finite false 8388608 (1 - 23).
Proof. reflexivity. Qed.

(** from a bound on the running total to a bound on the average *)
Lemma average_bound (w total : F32.t) (k : Z) :
  F32.canonical w = true → k = 0 ∨ k = 1 →
  total = pinf ∨ total = ninf
    ∨ (F32.canonical total = true ∧ 2 ^ k * F32.val w ≤ F32.val total) →
  let a := F32.div total (S754_finite false 8388608 (k - 23)) in
  F32.leb w a = true ∨ a = ninf.
Proof.
  intros Hw Hk [-> | [-> | [Ht Hle]]] a; subst a; unfold F32.div, F32.leb.
  - left. simpl. apply SFleb_pinf, Hw.
  - right. reflexivity.
  - destruct (div_pow2_lower_bound total k (F32.val w) Ht Hk
                (representable_val w Hw) Hle) as [-> | [-> | [Ha Hva]]].
    + left. apply SFleb_pinf, Hw.
    + right. reflexivity.
    + left. apply SFleb_of_val; assumption.
Qed.

Lemma add_zero_bound (x : F32.t) :
  F32.canonical x = true →
  let total := F32.add F32.zero x in
  total = pinf ∨ total = ninf
    ∨ (F32.canonical total = true ∧ 2 ^ 0 * F32.val x ≤ F32.val total).
Proof.
  intros Hx. change (2 ^ 0) with 1. rewrite Z.mul_1_l.
  apply add_lower_bound; [reflexivity | assumption | |].
  - apply representable_val, Hx.
  - simpl. lia.
Qed.

Lemma add_pair_bound (w x y : F32.t) :
  F32.canonical w = true → F32.canonical x = true → F32.canonical y = true →
  F32.val w ≤ F32.val x → F32.val w ≤ F32.val y →
  let total := F32.add (F32.add F32.zero x) y in
  total = pinf ∨ total = ninf
    ∨ (F32.canonical total = true ∧ 2 ^ 1 * F32.val w ≤ F32.val total).
Proof.
  intros Hw Hx Hy Hwx Hwy total. subst total.
  destruct (add_zero_bound x Hx) as [-> | [-> | [Hx0 Hvx0]]].
  3: change (2 ^ 0) with 1 in Hvx0; rewrite Z.mul_1_l in Hvx0.
  - left. destruct y as [s|s| |s m e]; try discriminate; reflexivity.
  - right. left. destruct y as [s|s| |s m e]; try discriminate; reflexivity.
  - change (2 ^ 1) with 2. apply add_lower_bound; try assumption.
    + apply representable_double, Hw.
    + lia.
Qed.

(** C5, amended.  For one or two finite scores inside the vector,
    [score_min] and [score_average] both return and the minimum is at most
    the average, unless the sum of the two scores overflows to minus
    infinity, which is then the average.  (With three scores the rounding of
    the running sum can leave the average below the minimum.) *)
Theorem score_min_le_average_pair (scores : statscores_t) (start end_ : Z) :
  SizeT.in_range start → SizeT.in_range end_ →
  start < end_ ≤ start + 2 →
  end_ ≤ Z.of_nat (length scores) →
  (∀ i x, start ≤ i < end_ → scores !! Z.to_nat i = Some x →
          F32.valid x = true ∧ F32.is_finite x = true) →
  ∃ lo avg,
    score_min scores start end_ = Ok lo
    ∧ score_average scores start end_ = Ok avg
    ∧ (F32.leb lo avg = true ∨ avg = ninf).
Proof.
  intros [Hs0 _] _ Hrange Hlen Hfin.
  destruct (vec_at_valid scores start) as (x & Hlx & Hax); [lia|].
  destruct (Hfin start x ltac:(lia) Hlx) as [Hvx Hfx].
  pose proof (valid_finite_canonical x Hvx Hfx) as Hcx.
  pose proof (canonical_not_nan x Hcx) as Hnx.
  destruct (min_step x F32.max Hnx eq_refl) as (Hn1 & Hle1x & _).
  set (lo1 := if F32.ltb x F32.max then x else F32.max) in *.
  destruct (Z.eq_dec end_ (start + 1)) as [-> | Hne].
  - (* one score *)
    exists lo1, (F32.div (F32.add F32.zero x) (F32.of_Z 1)).
    split; [|split].
    + unfold score_min. rewrite for_range_step by lia. rewrite Hax. simpl.
      apply for_range_done. lia.
    + unfold score_average, SizeT.sub. replace (start + 1 - start) with 1 by lia.
      change (SizeT.wrap 1) with 1. change (1 <? 1) with false. cbn iota.
      rewrite for_range_step by lia. rewrite Hax. simpl.
      rewrite for_range_done by lia. reflexivity.
    + rewrite of_Z_1.
      destruct (average_bound x (F32.add F32.zero x) 0 Hcx (or_introl eq_refl)
                  (add_zero_bound x Hcx)) as [Hle | Hinf].
      * left. eapply SFleb_trans; [exact Hle1x | exact Hle].
      * right. exact Hinf.
  - (* two scores *)
    assert (end_ = start + 2) as -> by lia.
    destruct (vec_at_valid scores (start + 1)) as (y & Hly & Hay); [lia|].
    destruct (Hfin (start + 1) y ltac:(lia) Hly) as [Hvy Hfy].
    pose proof (valid_finite_canonical y Hvy Hfy) as Hcy.
    pose proof (canonical_not_nan y Hcy) as Hny.
    destruct (min_step y lo1 Hny Hn1) as (Hn2 & Hle2y & Hle21).
    set (lo2 := if F32.ltb y lo1 then y else lo1) in *.
    assert (Hle2x : F32.leb lo2 x = true) by (eapply SFleb_trans; eassumption).
    exists lo2, (F32.div (F32.add (F32.add F32.zero x) y) (F32.of_Z 2)).
    split; [|split].
    + unfold score_min. rewrite for_range_step by lia. rewrite Hax. simpl.
      rewrite for_range_step by lia. rewrite Hay. simpl.
      apply for_range_done. lia.
    + unfold score_average, SizeT.sub. replace (start + 2 - start) with 2 by lia.
      change (SizeT.wrap 2) with 2. change (2 <? 1) with false. cbn iota.
      rewrite for_range_step by lia. rewrite Hax. simpl.
      rewrite for_range_step by lia. rewrite Hay. simpl.
      rewrite for_range_done by lia. reflexivity.
    + rewrite of_Z_2.
      destruct (Z_le_gt_dec (F32.val x) (F32.val y)) as [Hxy | Hyx].
      * destruct (average_bound x (F32.add (F32.add F32.zero x) y) 1 Hcx
                    (or_intror eq_refl)
                    (add_pair_bound x x y Hcx Hcx Hcy ltac:(lia) Hxy))
          as [Hle | Hinf]; [left | right; exact Hinf].
        eapply SFleb_trans; [exact Hle2x | exact Hle].
      * destruct (average_bound y (F32.add (F32.add F32.zero x) y) 1 Hcy
                    (or_intror eq_refl)
                    (add_pair_bound y x y Hcy Hcx Hcy ltac:(lia) ltac:(lia)))
          as [Hle | Hinf]; [left | right; exact Hinf].
        eapply SFleb_trans; [exact Hle2y | exact Hle].
Qed.

Lemma score_min_le_average_pair_witness :
  ∃ lo avg,
    score_min [two_thirds; F32.max] 0 2 = Ok lo
    ∧ score_average [two_thirds; F32.max] 0 2 = Ok avg
    ∧ (F32.leb lo avg = true ∨ avg = ninf).
Proof.
  apply (score_min_le_average_pair [two_thirds; F32.max] 0 2).
  - unfold SizeT.in_range, SizeT.max, SizeT.modulus, SizeT.bits. lia.
  - unfold SizeT.in_range, SizeT.max, SizeT.modulus, SizeT.bits. lia.
  - lia.
  - simpl. lia.
  - intros i x Hi Hx. assert (i = 0 ∨ i = 1) as [-> | ->] by lia;
      simpl in Hx; injection Hx as <-; split; reflexivity.
Defined.

(** On the witness the two values are 11184814 * 2^-24 and the rounded half
    of the sum with [numeric_limits<float>::max()]. *)
Example score_min_le_average_pair_values :
  score_min [two_thirds; F32.max] 0 2 = Ok two_thirds
  ∧ score_average [two_thirds; F32.max] 0 2 = Ok (S754_finite false 16777215 103).
Proof. vm_compute. split; reflexivity. Qed.

(** Two scores whose sum overflows: the average is minus infinity. *)
Example score_average_overflow :
  score_average [S754_finite true 16777215 104; S754_finite true 16777215 104] 0 2
  = Ok ninf.
Proof. vm_compute. reflexivity. Qed.

(** * Further properties *)

(** ** The loops as folds over the range *)

Lemma for_loop_fold {S A} (v : list A) (f : S → A → S) (n : nat) :
  ∀ (start : Z) (s : S),
    0 ≤ start → start + Z.of_nat n ≤ Z.of_nat (length v) →
    for_loop n start (fun i s => x ← vec_at v i; Ok (f s x)) s
    = Ok (foldl f s (take n (drop (Z.to_nat start) v))).
Proof.
  induction n as [|n IH]; intros start s Hs Hlen.
  - reflexivity.
  - destruct (vec_at_valid v start) as (x & Hx & Hat); [lia|].
    cbn [for_loop]. rewrite Hat. simpl.
    rewrite (drop_S _ _ _ Hx). cbn [take foldl].
    rewrite IH by lia.
    replace (Z.to_nat (start + 1)) with (Datatypes.S (Z.to_nat start)) by lia.
    reflexivity.
Qed.

Lemma for_range_slice {S A} (v : list A) (f : S → A → S) (start end_ : Z) (s : S) :
  0 ≤ start → end_ ≤ Z.of_nat (length v) →
  for_range start end_ (fun i s => x ← vec_at v i; Ok (f s x)) s
  = Ok (foldl f s (slice v start end_)).
Proof.
  intros Hs Hlen. unfold for_range, slice.
  destruct (Z_le_gt_dec end_ start) as [Hle|Hgt].
  - replace (Z.to_nat (end_ - start)) with O by lia. reflexivity.
  - apply for_loop_fold; lia.
Qed.

Lemma score_min_slice (scores : list F32.t) (start end_ : Z) :
  0 ≤ start → end_ ≤ Z.of_nat (length scores) →
  score_min scores start end_ = Ok (float_min (slice scores start end_)).
Proof. intros Hs Hlen. apply (for_range_slice scores keep_min); assumption. Qed.

Lemma SizeT_sub_small (start end_ : Z) :
  SizeT.in_range start → SizeT.in_range end_ → start ≤ end_ →
  SizeT.sub end_ start = end_ - start.
Proof.
  unfold SizeT.in_range, SizeT.sub, SizeT.wrap, SizeT.max, SizeT.modulus, SizeT.bits.
  intros Hs He Hle. apply Z.mod_small. lia.
Qed.

Lemma score_average_slice (scores : list F32.t) (start end_ : Z) :
  SizeT.in_range start → SizeT.in_range end_ →
  start < end_ → end_ ≤ Z.of_nat (length scores) →
  score_average scores start end_
  = Ok (F32.div (float_sum (slice scores start end_)) (F32.of_Z (end_ - start))).
Proof.
  intros Hs He Hlt Hlen. unfold score_average.
  rewrite SizeT_sub_small by (assumption || lia).
  destruct (Z.ltb_spec (end_ - start) 1); [lia|].
  rewrite (for_range_slice scores F32.add) by (destruct Hs; lia).
  reflexivity.
Qed.

Lemma slice_length {A} (v : list A) (start end_ : Z) :
  0 ≤ start ≤ end_ → end_ ≤ Z.of_nat (length v) →
  Z.of_nat (length (slice v start end_)) = end_ - start.
Proof.
  intros Hs Hlen. unfold slice. rewrite length_take, length_drop. lia.
Qed.

Lemma slice_all {A} (v : list A) : slice v 0 (Z.of_nat (length v)) = v.
Proof.
  unfold slice. rewrite Z.sub_0_r, Nat2Z.id. simpl. apply firstn_all.
Qed.

Lemma slice_lookup {A} (v : list A) (start end_ : Z) (k : nat) :
  0 ≤ start → Z.of_nat k < end_ - start →
  slice v start end_ !! k = v !! Z.to_nat (start + Z.of_nat k).
Proof.
  intros Hs Hk. unfold slice. rewrite lookup_take_lt by lia.
  rewrite lookup_drop. f_equal. lia.
Qed.

(** ** The order on floats

    Transitivity goals over [SFcompare] go by cases on the three numbers. *)
Ltac sf_order_trans x y z :=
  unfold SFleb, SFltb;
  destruct x as [sx|sx| |sx mx ex], y as [sy|sy| |sy my ey], z as [sz|sz| |sz mz ez];
  simpl; try discriminate; try reflexivity;
  try (destruct sx; try discriminate; try reflexivity;
       destruct sy; try discriminate; try reflexivity;
       destruct sz; try discriminate; reflexivity);
  try (destruct sx, sy; try discriminate; reflexivity);
  try (destruct sy, sz; try discriminate; reflexivity);
  try (destruct sx, sz; try discriminate; reflexivity);
  change (Pos.compare_cont Eq mx my) with (Pos.compare mx my);
  change (Pos.compare_cont Eq my mz) with (Pos.compare my mz);
  change (Pos.compare_cont Eq mx mz) with (Pos.compare mx mz);
  destruct sx, sy, sz; try discriminate; try reflexivity;
  destruct (Z.compare_spec ex ey); try discriminate;
  destruct (Z.compare_spec ey ez); try discriminate;
  destruct (Z.compare_spec ex ez); try reflexivity; try lia;
  subst;
  destruct (Pos.compare_spec mx my); try discriminate;
  destruct (Pos.compare_spec my mz); try discriminate;
  destruct (Pos.compare_spec mx mz); try reflexivity; try lia;
  simpl; intros; try discriminate; try lia.

Lemma SFleb_SFltb_trans (x y z : spec_float) :
  SFleb x y = true → SFltb y z = true → SFltb x z = true.
Proof. sf_order_trans x y z. Qed.

Lemma SFltb_SFleb_trans (x y z : spec_float) :
  SFltb x y = true → SFleb y z = true → SFltb x z = true.
Proof. sf_order_trans x y z. Qed.

Lemma SFltb_SFleb (x y : spec_float) : SFltb x y = true → SFleb x y = true.
Proof. unfold SFltb, SFleb. destruct (SFcompare x y) as [[]|]; congruence. Qed.

Lemma SFltb_false_SFleb (x y : spec_float) :
  F32.is_nan x = false → F32.is_nan y = false →
  SFltb x y = false → SFleb y x = true.
Proof.
  intros Hx Hy. unfold SFltb, SFleb. rewrite (SFcompare_antisym x y).
  destruct (SFcompare_total x y Hx Hy) as [c ->]. destruct c; simpl; congruence.
Qed.

Lemma SFleb_SFltb_false (x y : spec_float) :
  SFleb y x = true → SFltb x y = false.
Proof.
  unfold SFltb, SFleb. rewrite (SFcompare_antisym x y).
  destruct (SFcompare x y) as [[]|]; simpl; congruence.
Qed.

Lemma SFleb_refl (x : spec_float) : F32.is_nan x = false → SFleb x x = true.
Proof. intros Hx. unfold SFleb. rewrite (SFcompare_refl x Hx). reflexivity. Qed.

Lemma SFleb_not_nan (x y : spec_float) :
  SFleb x y = true → F32.is_nan x = false ∧ F32.is_nan y = false.
Proof. destruct x, y; simpl; try discriminate; auto. Qed.

Lemma SFltb_not_nan (x y : spec_float) :
  SFltb x y = true → F32.is_nan x = false ∧ F32.is_nan y = false.
Proof. destruct x, y; simpl; try discriminate; auto. Qed.

(** ** The minimum *)

Lemma slice_elem {A} (v : list A) (start end_ : Z) (x : A) :
  0 ≤ start →
  x ∈ slice v start end_ ↔
  ∃ i, start ≤ i < end_ ∧ v !! Z.to_nat i = Some x.
Proof.
  intros Hs. unfold slice. rewrite elem_of_take. split.
  - intros (k & Hk & Hlt). rewrite lookup_drop in Hk.
    exists (start + Z.of_nat k). split; [lia|].
    rewrite <- Hk. f_equal. lia.
  - intros (i & Hi & Hx). exists (Z.to_nat (i - start)). split; [|lia].
    rewrite lookup_drop, <- Hx. f_equal. lia.
Qed.

Lemma slice_app {A} (v : list A) (start mid end_ : Z) :
  0 ≤ start ≤ mid → mid ≤ end_ →
  slice v start end_ = slice v start mid ++ slice v mid end_.
Proof.
  intros Hs Hm. unfold slice.
  replace (Z.to_nat (end_ - start))
    with (Z.to_nat (mid - start) + Z.to_nat (end_ - mid))%nat by lia.
  rewrite <- take_take_drop, drop_drop. do 3 f_equal. lia.
Qed.

Lemma F32_max_not_nan : F32.is_nan F32.max = false.
Proof. reflexivity. Qed.

Lemma keep_min_spec (lo x : F32.t) :
  F32.is_nan lo = false →
  F32.is_nan (keep_min lo x) = false
  ∧ F32.leb (keep_min lo x) lo = true
  ∧ (F32.is_nan x = false → F32.leb (keep_min lo x) x = true)
  ∧ (keep_min lo x = lo ∨ keep_min lo x = x).
Proof.
  intros Hlo. unfold keep_min, F32.leb, F32.ltb.
  destruct (SFltb x lo) eqn:Hlt.
  - destruct (SFltb_not_nan _ _ Hlt) as [Hx _].
    split; [assumption|]. split; [apply SFltb_SFleb, Hlt|].
    split; [intros _; apply SFleb_refl, Hx | right; reflexivity].
  - split; [assumption|]. split; [apply SFleb_refl, Hlo|].
    split; [|left; reflexivity].
    intros Hx. apply SFltb_false_SFleb; assumption.
Qed.

Lemma foldl_keep_min_spec (xs : list F32.t) : ∀ lo,
  F32.is_nan lo = false →
  F32.is_nan (foldl keep_min lo xs) = false
  ∧ F32.leb (foldl keep_min lo xs) lo = true
  ∧ (∀ x, x ∈ xs → F32.is_nan x = false → F32.leb (foldl keep_min lo xs) x = true)
  ∧ (foldl keep_min lo xs = lo ∨ foldl keep_min lo xs ∈ xs).
Proof.
  induction xs as [|y xs IH]; intros lo Hlo; cbn [foldl].
  - split; [assumption|]. split; [apply SFleb_refl, Hlo|].
    split; [intros x Hx; inversion Hx | left; reflexivity].
  - destruct (keep_min_spec lo y Hlo) as (Hn & Hle & Hley & Hin).
    destruct (IH (keep_min lo y) Hn) as (Hn' & Hle' & Hall & Hin').
    split; [assumption|]. split; [eapply SFleb_trans; eassumption|]. split.
    + intros x Hx Hnx. apply elem_of_cons in Hx as [-> | Hx].
      * eapply SFleb_trans; [exact Hle' | apply Hley, Hnx].
      * apply Hall; assumption.
    + destruct Hin' as [Heq | Hin'].
      * rewrite Heq. destruct Hin as [-> | ->]; [left; reflexivity|].
        right. apply elem_of_cons. left. reflexivity.
      * right. apply elem_of_cons. right. assumption.
Qed.

(** X1.  On a range inside the vector [score_min] returns a value that is
    not NaN, is at most [numeric_limits<float>::max()] and is at most every
    score of the range that is not NaN. *)
Theorem score_min_lower_bound (scores : list F32.t) (start end_ : Z) :
  0 ≤ start → end_ ≤ Z.of_nat (length scores) →
  ∃ lo, score_min scores start end_ = Ok lo
    ∧ F32.is_nan lo = false
    ∧ F32.leb lo F32.max = true
    ∧ (∀ i x, start ≤ i < end_ → scores !! Z.to_nat i = Some x →
              F32.is_nan x = false → F32.leb lo x = true).
Proof.
  intros Hs Hlen. rewrite score_min_slice by assumption.
  destruct (foldl_keep_min_spec (slice scores start end_) F32.max F32_max_not_nan)
    as (Hn & Hle & Hall & _).
  eexists. split; [reflexivity|]. split; [exact Hn|]. split; [exact Hle|].
  intros i x Hi Hx Hnx. apply Hall; [|assumption].
  apply slice_elem; [assumption|]. eauto.
Qed.

(** X2.  What [score_min] returns on a range inside the vector is the
    initial [numeric_limits<float>::max()] or one of the scores of the
    range. *)
Theorem score_min_attained (scores : list F32.t) (start end_ : Z) :
  0 ≤ start → end_ ≤ Z.of_nat (length scores) →
  ∃ lo, score_min scores start end_ = Ok lo
    ∧ (lo = F32.max
       ∨ ∃ i, start ≤ i < end_ ∧ scores !! Z.to_nat i = Some lo).
Proof.
  intros Hs Hlen. rewrite score_min_slice by assumption.
  destruct (foldl_keep_min_spec (slice scores start end_) F32.max F32_max_not_nan)
    as (_ & _ & _ & Hin).
  eexists. split; [reflexivity|].
  destruct Hin as [Heq | Hin]; [left; exact Heq | right].
  apply slice_elem in Hin; assumption.
Qed.

Lemma foldl_keep_min_none_below (xs : list F32.t) (lo : F32.t) :
  (∀ x, x ∈ xs → F32.ltb x lo = false) → foldl keep_min lo xs = lo.
Proof.
  induction xs as [|y xs IH]; intros Hall; cbn [foldl]; [reflexivity|].
  assert (Hy : keep_min lo y = lo).
  { unfold keep_min. rewrite Hall; [reflexivity | apply elem_of_cons; auto]. }
  rewrite Hy. apply IH. intros x Hx. apply Hall, elem_of_cons. auto.
Qed.

(** X3.  [score_min] returns [numeric_limits<float>::max()] exactly when no
    score of the range compares below it: scores that are NaN, plus infinity
    or the maximum itself never replace the initial value. *)
Theorem score_min_is_max_iff (scores : list F32.t) (start end_ : Z) :
  0 ≤ start → end_ ≤ Z.of_nat (length scores) →
  score_min scores start end_ = Ok F32.max
  ↔ (∀ i x, start ≤ i < end_ → scores !! Z.to_nat i = Some x →
            F32.ltb x F32.max = false).
Proof.
  intros Hs Hlen. rewrite score_min_slice by assumption. split.
  - intros Hmax i x Hi Hx. injection Hmax as Hmax.
    destruct (F32.ltb x F32.max) eqn:Hlt; [exfalso | reflexivity].
    destruct (SFltb_not_nan _ _ Hlt) as [Hnx _].
    destruct (foldl_keep_min_spec (slice scores start end_) F32.max F32_max_not_nan)
      as (_ & _ & Hall & _).
    assert (Hle : F32.leb (float_min (slice scores start end_)) x = true).
    { apply Hall; [|assumption]. apply slice_elem; [assumption|]. eauto. }
    rewrite Hmax in Hle.
    pose proof (SFleb_SFltb_trans _ _ _ Hle Hlt) as Habs. discriminate Habs.
  - intros Hall. f_equal. apply foldl_keep_min_none_below.
    intros x Hx. apply slice_elem in Hx as (i & Hi & Hx); [|assumption]. eauto.
Qed.

(** continuing the loop from [a] *)
Lemma foldl_keep_min_from (ys : list F32.t) : ∀ a,
  F32.is_nan a = false → F32.leb a F32.max = true →
  foldl keep_min a ys = keep_min a (foldl keep_min F32.max ys).
Proof.
  induction ys as [|y ys IH]; intros a Hna Hamax; cbn [foldl].
  - unfold keep_min. unfold F32.ltb, F32.leb in *.
    rewrite (SFleb_SFltb_false F32.max a Hamax). reflexivity.
  - destruct (F32.ltb y a) eqn:Hya.
    + (* y replaces a, and y is below max as well *)
      assert (Hymax : F32.ltb y F32.max = true)
        by (eapply SFltb_SFleb_trans; eassumption).
      assert (Hka : keep_min a y = y) by (unfold keep_min; rewrite Hya; reflexivity).
      assert (Hkm : keep_min F32.max y = y)
        by (unfold keep_min; rewrite Hymax; reflexivity).
      rewrite Hka, Hkm.
      destruct (SFltb_not_nan _ _ Hya) as [Hny _].
      destruct (foldl_keep_min_spec ys y Hny) as (_ & Hle & _ & _).
      set (R := foldl keep_min y ys) in *. unfold keep_min.
      replace (F32.ltb R a) with true
        by (symmetry; eapply SFleb_SFltb_trans; eassumption).
      reflexivity.
    + assert (Hka : keep_min a y = a) by (unfold keep_min; rewrite Hya; reflexivity).
      rewrite Hka, (IH a Hna Hamax).
      destruct (F32.ltb y F32.max) eqn:Hymax.
      * assert (Hkm : keep_min F32.max y = y)
          by (unfold keep_min; rewrite Hymax; reflexivity).
        rewrite Hkm.
        destruct (SFltb_not_nan _ _ Hymax) as [Hny _].
        rewrite (IH y Hny (SFltb_SFleb _ _ Hymax)).
        set (L := foldl keep_min F32.max ys).
        assert (HnL : F32.is_nan L = false)
          by (apply (foldl_keep_min_spec ys F32.max F32_max_not_nan)).
        assert (HyL : F32.ltb L y = false → F32.ltb L a = false).
        { intros HLy.
          assert (HyL : F32.leb y L = true) by (apply SFltb_false_SFleb; assumption).
          assert (Hay : F32.leb a y = true) by (apply SFltb_false_SFleb; assumption).
          apply SFleb_SFltb_false. eapply SFleb_trans; eassumption. }
        unfold keep_min. destruct (F32.ltb L y) eqn:HLy; [reflexivity|].
        rewrite Hya, (HyL eq_refl). reflexivity.
      * assert (Hkm : keep_min F32.max y = F32.max)
          by (unfold keep_min; rewrite Hymax; reflexivity).
        rewrite Hkm. reflexivity.
Qed.

(** X4.  Splitting a range at [mid]: the minimum over the whole range is
    the minimum of the second part if that is below the minimum of the
    first part, and the minimum of the first part otherwise. *)
Theorem score_min_split (scores : list F32.t) (start mid end_ : Z) :
  0 ≤ start ≤ mid → mid ≤ end_ → end_ ≤ Z.of_nat (length scores) →
  ∃ lo1 lo2,
    score_min scores start mid = Ok lo1
    ∧ score_min scores mid end_ = Ok lo2
    ∧ score_min scores start end_ = Ok (if F32.ltb lo2 lo1 then lo2 else lo1).
Proof.
  intros Hs Hm Hlen.
  rewrite !score_min_slice by lia.
  exists (float_min (slice scores start mid)), (float_min (slice scores mid end_)).
  split; [reflexivity|]. split; [reflexivity|]. f_equal.
  rewrite (slice_app scores start mid end_) by lia.
  unfold float_min. rewrite foldl_app.
  destruct (foldl_keep_min_spec (slice scores start mid) F32.max F32_max_not_nan)
    as (Hn & Hle & _ & _).
  rewrite (foldl_keep_min_from _ _ Hn Hle). reflexivity.
Qed.

(** ** The average: empty ranges, one score, NaN *)

(** rounding leaves a number of the format as it is *)
Lemma binary_round_valid_id (s : bool) (m : positive) (e : Z) :
  bounded F32.prec F32.emax m e = true →
  binary_round F32.prec F32.emax s m e = S754_finite s m e.
Proof.
  unfold bounded. intros Hb. apply andb_prop in Hb as [Hc Hle].
  pose proof Hc as Hfexp. unfold canonical_mantissa in Hfexp.
  apply Z.eqb_eq in Hfexp.
  rewrite binary_round_noalign by lia.
  unfold binary_round_aux.
  rewrite (shr_fexp_noshift (Zpos m) e) by (cbn [Zdigits2]; lia).
  cbn [shr_record_of_loc loc_of_shr_record shr_m round_nearest_even].
  rewrite (shr_fexp_noshift (Zpos m) e) by (cbn [Zdigits2]; lia).
  cbn [shr_record_of_loc shr_m]. rewrite Hle. reflexivity.
Qed.

(** a positive integer converts to a positive number *)
Lemma of_Z_positive (n : Z) :
  1 ≤ n →
  F32.of_Z n = pinf ∨ ∃ m e, F32.of_Z n = S754_finite false m e.
Proof.
  intros Hn. destruct n as [|p|p]; try lia.
  unfold F32.of_Z. cbn [binary_normalize].
  destruct (round_lower_bound false p 0 (2 ^ 150)) as [Hinf | [Hc Hv]].
  - lia.
  - right. exists 8388608%positive, (-23). split; reflexivity.
  - cbn [cond_Zopp]. change (0 + 150) with 150. lia.
  - left. exact Hinf.
  - right. destruct (binary_round F32.prec F32.emax false p 0) as [s|s| |s m e];
      try discriminate.
    + simpl in Hv. lia.
    + exists m, e. destruct s; [|reflexivity].
      cbn [F32.val F32.canonical] in *.
      pose proof (canonical_mantissa_inv _ _ Hc) as (He & _).
      assert (0 < Zpos m * 2 ^ (e + 150)).
      { apply Z.mul_pos_pos; [lia | apply Z.pow_pos_nonneg; lia]. }
      cbn [cond_Zopp] in Hv. lia.
Qed.

Lemma div_zero_positive (d : F32.t) :
  d = pinf ∨ (∃ m e, d = S754_finite false m e) →
  F32.div F32.zero d = F32.zero.
Proof. intros [-> | (m & e & ->)]; reflexivity. Qed.

Lemma SizeT_sub_range (a b : Z) : 0 ≤ SizeT.sub a b < 2 ^ 64.
Proof.
  unfold SizeT.sub, SizeT.wrap, SizeT.modulus, SizeT.bits.
  apply Z.mod_pos_bound. lia.
Qed.

(** X5.  [score_average] returns 0 on every range with [end <= start] and
    reads nothing.  For [end < start] the unsigned difference wraps around to
    a positive count, the guard is not taken, and 0 divided by the count is
    0. *)
Theorem score_average_empty_any (scores : list F32.t) (start end_ : Z) :
  end_ ≤ start → score_average scores start end_ = Ok F32.zero.
Proof.
  intros Hle. unfold score_average.
  destruct (Z.ltb_spec (SizeT.sub end_ start) 1) as [|Hge]; [reflexivity|].
  rewrite for_range_done by assumption. simpl. f_equal.
  apply div_zero_positive, of_Z_positive, Hge.
Qed.

Lemma F32_ltb_max_false (x : F32.t) :
  F32.valid x = true → F32.is_finite x = true →
  F32.ltb x F32.max = false → x = F32.max.
Proof.
  destruct x as [s|s| |s m e]; try discriminate; intros Hv _.
  cbn [F32.valid valid_binary] in Hv. unfold bounded in Hv.
  apply andb_prop in Hv as [Hc Hle].
  apply canonical_mantissa_bounds in Hc as (_ & Hm & _).
  apply Z.leb_le in Hle. change (F32.emax - F32.prec) with 104 in Hle.
  change F32.max with (S754_finite false 16777215 104).
  unfold F32.ltb, SFltb. cbn [SFcompare].
  change (Pos.compare_cont Eq m 16777215) with (Pos.compare m 16777215).
  destruct s; [discriminate|].
  destruct (Z.compare_spec e 104); try discriminate; [|lia].
  destruct (Pos.compare_spec m 16777215); try discriminate; [|lia].
  intros _. subst. reflexivity.
Qed.

(** X6.  With one finite score in the range both helpers return that score
    ([score_average] returns +0 for a zero of either sign). *)
Theorem regularisation_single (scores : list F32.t) (i : Z) (x : F32.t) :
  SizeT.in_range i → SizeT.in_range (i + 1) →
  scores !! Z.to_nat i = Some x →
  F32.valid x = true → F32.is_finite x = true →
  score_min scores i (i + 1) = Ok x
  ∧ score_average scores i (i + 1)
    = Ok (match x with S754_zero _ => F32.zero | _ => x end).
Proof.
  intros Hi Hi1 Hx Hv Hf.
  assert (Hlen : i + 1 ≤ Z.of_nat (length scores)).
  { apply lookup_lt_Some in Hx. destruct Hi. lia. }
  assert (Hslice : slice scores i (i + 1) = [x]).
  { unfold slice. replace (Z.to_nat (i + 1 - i)) with 1%nat by lia.
    rewrite (drop_S _ _ _ Hx). reflexivity. }
  split.
  - rewrite score_min_slice by (destruct Hi; lia).
    rewrite Hslice. unfold float_min. cbn [foldl]. unfold keep_min. f_equal.
    destruct (F32.ltb x F32.max) eqn:Hlt; [reflexivity|].
    symmetry. apply F32_ltb_max_false; assumption.
  - rewrite score_average_slice by (assumption || lia).
    rewrite Hslice. replace (i + 1 - i) with 1 by lia.
    unfold float_sum. cbn [foldl]. rewrite of_Z_1. f_equal.
    destruct x as [s|s| |s m e]; try discriminate.
    + destruct s; reflexivity.
    + cbn [F32.add SFadd F32.zero]. unfold F32.div.
      cbn [F32.valid valid_binary] in Hv.
      pose proof Hv as Hb. unfold bounded in Hb. apply andb_prop in Hb as [Hc _].
      rewrite (SFdiv_pow2 s m e 0 Hc (or_introl eq_refl)), Z.sub_0_r.
      apply binary_round_valid_id, Hv.
Qed.

Lemma SFadd_nan_l (x : F32.t) : F32.add S754_nan x = S754_nan.
Proof. destruct x; reflexivity. Qed.

Lemma SFadd_nan_r (x : F32.t) : F32.add x S754_nan = S754_nan.
Proof. destruct x; reflexivity. Qed.

Lemma foldl_add_nan (xs : list F32.t) : foldl F32.add S754_nan xs = S754_nan.
Proof. induction xs as [|y xs IH]; cbn [foldl]; [reflexivity|]. rewrite SFadd_nan_l. exact IH. Qed.

Lemma foldl_add_with_nan (xs : list F32.t) : ∀ t,
  S754_nan ∈ xs → foldl F32.add t xs = S754_nan.
Proof.
  induction xs as [|y xs IH]; intros t Hin; [inversion Hin|].
  cbn [foldl]. apply elem_of_cons in Hin as [<- | Hin].
  - rewrite SFadd_nan_r. apply foldl_add_nan.
  - apply IH, Hin.
Qed.

(** X7.  One NaN score anywhere in a range inside the vector makes
    [score_average] return NaN. *)
Theorem score_average_nan (scores : list F32.t) (start end_ i : Z) :
  SizeT.in_range start → SizeT.in_range end_ →
  end_ ≤ Z.of_nat (length scores) →
  start ≤ i < end_ → scores !! Z.to_nat i = Some S754_nan →
  score_average scores start end_ = Ok S754_nan.
Proof.
  intros Hs He Hlen Hi Hx.
  rewrite score_average_slice by (assumption || lia). unfold float_sum.
  rewrite (foldl_add_with_nan (slice scores start end_)).
  - reflexivity.
  - apply slice_elem; [destruct Hs; lia|]. eauto.
Qed.

(** ** The average: class and sign of the result *)

(** *** No overflow below 2^127 *)

Lemma round_second_shift_finite (s : bool) (M E : Z) :
  0 ≤ M ≤ 2 ^ 24 → -149 ≤ E → E + 1 ≤ 104 →
  F32.is_finite
    (let '(mrs, e) := shr_fexp F32.prec F32.emax M E loc_Exact in
     match shr_m mrs with
     | Z0 => S754_zero s
     | Zpos m => if e <=? F32.emax - F32.prec then S754_finite s m e else S754_infinity s
     | Zneg _ => S754_nan
     end) = true.
Proof.
  intros HM HE Hmax. unfold shr_fexp. rewrite fexp_eq.
  change (F32.emax - F32.prec) with 104.
  destruct M as [|p|p]; [| |lia].
  - cbn [Zdigits2]. rewrite shr_nonpos by lia. reflexivity.
  - destruct (Z.eq_dec (Zpos p) (2 ^ 24)) as [Heq|Hne].
    + assert (p = 16777216%positive) as -> by lia.
      change (Zdigits2 (Zpos 16777216)) with 25.
      replace (Z.max (25 + E - 24) (-149) - E) with 1 by lia.
      cbn [shr shr_record_of_loc SpecFloat.iter_pos shr_1 shr_m orb].
      destruct (Z.leb_spec (E + 1) 104); [reflexivity | lia].
    + assert (Hd : Zpos (digits2_pos p) ≤ 24) by (apply digits_le_24; lia).
      cbn [Zdigits2]. rewrite shr_nonpos by lia.
      cbn [shr_record_of_loc shr_m].
      destruct (Z.leb_spec E 104); [reflexivity | lia].
Qed.

Lemma binary_round_aux_finite (s : bool) (m e : Z) :
  0 < m →
  let E := fexp F32.prec F32.emax (Zdigits2 m + e) in
  e ≤ E → E + 1 ≤ 104 →
  F32.is_finite (binary_round_aux F32.prec F32.emax s m e loc_Exact) = true.
Proof.
  intros Hm E HE Hmax.
  destruct m as [|p|p]; try lia.
  pose proof (digits2_pos_bounds p) as [Hlo Hhi].
  assert (HEdef : E = Z.max (Zpos (digits2_pos p) + e - 24) (-149)) by reflexivity.
  unfold binary_round_aux. unfold shr_fexp at 1. fold E. cbn [shr_record_of_loc].
  destruct (shr_spec (Zpos p) e (E - e)) as (mrs & Hshr & Hq & Hexact); [lia | lia |].
  rewrite Hshr. replace (e + (E - e)) with E by lia.
  pose proof (round_nearest_even_bounds mrs) as [Hrne _].
  assert (Hpow : 0 < 2 ^ (E - e)) by (apply Z.pow_pos_nonneg; lia).
  assert (Hq24 : Zpos p / 2 ^ (E - e) < 2 ^ 24).
  { apply Z.div_lt_upper_bound; [lia|].
    rewrite <- Z.pow_add_r by lia.
    eapply Z.lt_le_trans; [exact Hhi|]. apply Z.pow_le_mono_r; lia. }
  assert (Hq0 : 0 ≤ Zpos p / 2 ^ (E - e)) by (apply Z.div_pos; lia).
  apply round_second_shift_finite; lia.
Qed.

Lemma binary_round_finite (s : bool) (m : positive) (e : Z) :
  Zpos (digits2_pos m) + e ≤ 127 →
  F32.is_finite (binary_round F32.prec F32.emax s m e) = true.
Proof.
  intros Hmag.
  set (E := fexp F32.prec F32.emax (Zpos (digits2_pos m) + e)).
  assert (HE : E = Z.max (Zpos (digits2_pos m) + e - 24) (-149)) by reflexivity.
  unfold binary_round. fold E.
  destruct (shl_align_spec m e E) as [Hshl Hnoshl].
  destruct (Z_lt_le_dec E e) as [Hlt|Hle].
  - destruct (Hshl Hlt) as (mz & -> & Hmz & Hdz).
    apply binary_round_aux_finite; cbn [Zdigits2]; rewrite ?Hdz, ?fexp_eq; lia.
  - rewrite (Hnoshl Hle).
    apply binary_round_aux_finite; cbn [Zdigits2]; fold E; lia.
Qed.

(** the element count of a range converts to a positive finite number *)
Lemma of_Z_count (n : Z) :
  1 ≤ n < 2 ^ 64 → ∃ m e, F32.of_Z n = S754_finite false m e.
Proof.
  intros Hn. destruct (of_Z_positive n ltac:(lia)) as [Hinf | Hfin]; [|exact Hfin].
  exfalso. destruct n as [|p|p]; try lia.
  assert (Hfinite : F32.is_finite (F32.of_Z (Zpos p)) = true).
  { unfold F32.of_Z. cbn [binary_normalize]. apply binary_round_finite.
    pose proof (digits2_pos_bounds p) as [Hlo _].
    destruct (Z_le_gt_dec (Zpos (digits2_pos p)) 64) as [|Hgt]; [lia|].
    assert (2 ^ 64 ≤ 2 ^ (Zpos (digits2_pos p) - 1)) by (apply Z.pow_le_mono_r; lia).
    lia. }
  rewrite Hinf in Hfinite. discriminate.
Qed.

(** *** The sign and class of a rounded result *)

Lemma shr_1_nonneg (mrs : shr_record) : 0 ≤ shr_m mrs → 0 ≤ shr_m (shr_1 mrs).
Proof.
  destruct mrs as [m r s]. cbn [shr_m]. intros Hm.
  destruct m as [|[p|p|]|p]; cbn; lia.
Qed.

Lemma shr_nonneg (mrs : shr_record) (e n : Z) :
  0 ≤ shr_m mrs → 0 ≤ shr_m (shr mrs e n).1.
Proof.
  intros Hm. destruct n as [|p|p]; cbn [shr fst]; try assumption.
  exact (iter_pos_invariant shr_1 (fun _ r => 0 ≤ shr_m r)
           (fun k x _ => shr_1_nonneg x) p 0 mrs ltac:(lia) Hm).
Qed.

Lemma shr_fexp_nonneg (m e : Z) (loc : location) :
  0 ≤ m → 0 ≤ shr_m (shr_fexp F32.prec F32.emax m e loc).1.
Proof.
  intros Hm. unfold shr_fexp. apply shr_nonneg.
  destruct loc as [|[]]; exact Hm.
Qed.

Lemma binary_round_aux_class (s : bool) (m e : Z) (loc : location) :
  0 ≤ m →
  let r := binary_round_aux F32.prec F32.emax s m e loc in
  r = S754_zero s ∨ r = S754_infinity s ∨ ∃ m' e', r = S754_finite s m' e'.
Proof.
  intros Hm r. subst r. unfold binary_round_aux.
  pose proof (shr_fexp_nonneg m e loc Hm) as H1.
  destruct (shr_fexp F32.prec F32.emax m e loc) as [mrs' e'].
  cbn [fst] in H1.
  pose proof (round_nearest_even_bounds mrs') as [Hrne _].
  pose proof (shr_fexp_nonneg
                (round_nearest_even (shr_m mrs') (loc_of_shr_record mrs')) e'
                loc_Exact ltac:(lia)) as H2.
  destruct (shr_fexp F32.prec F32.emax
              (round_nearest_even (shr_m mrs') (loc_of_shr_record mrs')) e' loc_Exact)
    as [mrs'' e''].
  cbn [fst] in H2.
  destruct (shr_m mrs'') as [|p|p]; [left; reflexivity | | lia].
  right. destruct (e'' <=? F32.emax - F32.prec); [right; eauto | left; reflexivity].
Qed.

(** dividing by a positive finite number keeps the sign and gives no NaN *)
Lemma SFdiv_finite_class (s : bool) (m md : positive) (e ed : Z) :
  let r := F32.div (S754_finite s m e) (S754_finite false md ed) in
  r = S754_zero s ∨ r = S754_infinity s ∨ ∃ m' e', r = S754_finite s m' e'.
Proof.
  unfold F32.div. cbn [SFdiv]. rewrite xorb_false_r. unfold SFdiv_core_binary.
  rewrite div_eucl_pair. cbv zeta.
  apply binary_round_aux_class. apply Z.div_pos; [|lia].
  match goal with |- 0 ≤ match ?sh with _ => _ end => destruct sh eqn:Hsh end;
    try lia.
  apply Z.shiftl_nonneg. lia.
Qed.

(** *** Rounding is symmetric in the sign *)

Lemma binary_round_aux_opp (s : bool) (m e : Z) (loc : location) :
  binary_round_aux F32.prec F32.emax (negb s) m e loc
  = SFopp (binary_round_aux F32.prec F32.emax s m e loc).
Proof.
  unfold binary_round_aux.
  destruct (shr_fexp F32.prec F32.emax m e loc) as [mrs' e'].
  destruct (shr_fexp F32.prec F32.emax _ e' loc_Exact) as [mrs'' e''].
  destruct (shr_m mrs''); [reflexivity | | reflexivity].
  destruct (e'' <=? F32.emax - F32.prec); reflexivity.
Qed.

Lemma binary_round_opp (s : bool) (m : positive) (e : Z) :
  binary_round F32.prec F32.emax (negb s) m e
  = SFopp (binary_round F32.prec F32.emax s m e).
Proof.
  unfold binary_round. destruct (shl_align m e _) as [mz ez].
  apply binary_round_aux_opp.
Qed.

Lemma val_opp (x : F32.t) : F32.val (SFopp x) = - F32.val x.
Proof. destruct x as [s|s| |s m e]; cbn; try reflexivity. destruct s; cbn; lia. Qed.

Lemma canonical_opp (x : F32.t) : F32.canonical (SFopp x) = F32.canonical x.
Proof. destruct x; reflexivity. Qed.

Lemma representable_opp (F : Z) : representable F → representable (- F).
Proof.
  intros [-> | (mf & ef & Hc & Habs)]; [left; reflexivity|].
  right. exists mf, ef. split; [assumption|]. rewrite Z.abs_opp. exact Habs.
Qed.

(** a representable upper bound of the exact value bounds the rounded one *)
Lemma round_upper_bound (s : bool) (m : positive) (e F : Z) :
  -150 ≤ e → representable F →
  cond_Zopp s (Zpos m * 2 ^ (e + 150)) ≤ F →
  let r := binary_round F32.prec F32.emax s m e in
  r = S754_infinity s ∨ (F32.canonical r = true ∧ F32.val r ≤ F).
Proof.
  intros He HF Hle r.
  destruct (round_lower_bound (negb s) m e (- F) He (representable_opp F HF))
    as [Hinf | [Hc Hv]].
  - destruct s; cbn [negb cond_Zopp] in *; lia.
  - left. rewrite binary_round_opp in Hinf. fold r in Hinf.
    destruct r as [s'|s'| |s' m' e']; try discriminate.
    cbn in Hinf. injection Hinf as Hs. f_equal.
    destruct s, s'; cbn in Hs; congruence.
  - right. rewrite binary_round_opp in Hc, Hv. fold r in Hc, Hv.
    rewrite canonical_opp in Hc. rewrite val_opp in Hv. split; [assumption | lia].
Qed.

(** *** The exact sum behind [SFadd] *)

Lemma SFadd_finite (sx sy : bool) (mx my : positive) (ex ey : Z) :
  -149 ≤ ex → -149 ≤ ey →
  ∃ M ez, -149 ≤ ez
    ∧ SFadd F32.prec F32.emax (S754_finite sx mx ex) (S754_finite sy my ey)
      = binary_normalize F32.prec F32.emax M ez false
    ∧ M * 2 ^ (ez + 150)
      = F32.val (S754_finite sx mx ex) + F32.val (S754_finite sy my ey).
Proof.
  intros Hex Hey. cbn [SFadd F32.val].
  set (ez := Z.min ex ey).
  assert (Hez : -149 ≤ ez ∧ ez ≤ ex ∧ ez ≤ ey) by (unfold ez; lia).
  rewrite (shl_align_fst mx ex ez), (shl_align_fst my ey ez) by lia.
  eexists _, ez. split; [lia|]. split; [reflexivity|].
  replace (ex + 150) with ((ex - ez) + (ez + 150)) by lia.
  replace (ey + 150) with ((ey - ez) + (ez + 150)) by lia.
  rewrite (Z.pow_add_r 2 (ex - ez) (ez + 150)) by lia.
  rewrite (Z.pow_add_r 2 (ey - ez) (ez + 150)) by lia.
  generalize (2 ^ (ex - ez)) (2 ^ (ey - ez)) (2 ^ (ez + 150)). intros.
  destruct sx, sy; cbn [cond_Zopp]; lia.
Qed.

(** an infinite result of the normalisation has the sign of the value *)
Lemma normalize_lower_bound (M ez F : Z) :
  -150 ≤ ez → representable F → F ≤ M * 2 ^ (ez + 150) →
  let r := binary_normalize F32.prec F32.emax M ez false in
  r = S754_infinity (M <? 0) ∨ (F32.canonical r = true ∧ F ≤ F32.val r).
Proof.
  intros He HF Hle r. subst r. destruct M as [|p|p]; cbn [binary_normalize].
  - right. split; [reflexivity|]. cbn. lia.
  - apply (round_lower_bound false p ez F He HF). cbn [cond_Zopp]. lia.
  - apply (round_lower_bound true p ez F He HF). cbn [cond_Zopp]. lia.
Qed.

Lemma normalize_upper_bound (M ez F : Z) :
  -150 ≤ ez → representable F → M * 2 ^ (ez + 150) ≤ F →
  let r := binary_normalize F32.prec F32.emax M ez false in
  r = S754_infinity (M <? 0) ∨ (F32.canonical r = true ∧ F32.val r ≤ F).
Proof.
  intros He HF Hle r. subst r. destruct M as [|p|p]; cbn [binary_normalize].
  - right. split; [reflexivity|]. cbn. lia.
  - apply (round_upper_bound false p ez F He HF). cbn [cond_Zopp]. lia.
  - apply (round_upper_bound true p ez F He HF). cbn [cond_Zopp]. lia.
Qed.

Lemma canonical_exponent (s : bool) (m : positive) (e : Z) :
  F32.canonical (S754_finite s m e) = true → -149 ≤ e.
Proof. intros Hc. apply canonical_mantissa_inv in Hc. tauto. Qed.

(** the sum of two non-negative numbers is non-negative *)
Lemma add_nonneg (x y : F32.t) :
  F32.canonical x = true → F32.canonical y = true →
  0 ≤ F32.val x → 0 ≤ F32.val y →
  let t := F32.add x y in
  t = pinf ∨ (F32.canonical t = true ∧ 0 ≤ F32.val t).
Proof.
  intros Hx Hy Hvx Hvy t. subst t. unfold F32.add.
  destruct x as [sx|sx| |sx mx ex], y as [sy|sy| |sy my ey]; try discriminate.
  - right. destruct sx, sy; split; reflexivity.
  - right. split; assumption.
  - right. split; assumption.
  - destruct (SFadd_finite sx sy mx my ex ey) as (M & ez & Hez & -> & HM);
      [eapply canonical_exponent; eassumption..|].
    destruct (normalize_lower_bound M ez 0) as [Hinf | Hfin];
      [lia | left; reflexivity | lia | | right; exact Hfin].
    left. rewrite Hinf. f_equal.
    assert (0 < 2 ^ (ez + 150)) by (apply Z.pow_pos_nonneg; lia).
    apply Z.ltb_ge. nia.
Qed.

(** the sum of two finite numbers is finite or an infinity, never NaN *)
Lemma add_class (x y : F32.t) :
  F32.canonical x = true → F32.canonical y = true →
  let t := F32.add x y in
  t = pinf ∨ t = ninf ∨ F32.canonical t = true.
Proof.
  intros Hx Hy t. subst t. unfold F32.add.
  destruct x as [sx|sx| |sx mx ex], y as [sy|sy| |sy my ey]; try discriminate.
  - right. right. destruct sx, sy; reflexivity.
  - right. right. assumption.
  - right. right. assumption.
  - destruct (SFadd_finite sx sy mx my ex ey) as (M & ez & Hez & -> & HM);
      [eapply canonical_exponent; eassumption..|].
    assert (0 < 2 ^ (ez + 150)) by (apply Z.pow_pos_nonneg; lia).
    destruct M as [|p|p]; cbn [binary_normalize].
    + right. right. reflexivity.
    + destruct (round_lower_bound false p ez 0) as [-> | [Hc _]];
        [lia | left; reflexivity | cbn [cond_Zopp]; nia | auto | auto].
    + destruct (round_upper_bound true p ez 0) as [-> | [Hc _]];
        [lia | left; reflexivity | cbn [cond_Zopp]; nia | auto | auto].
Qed.

Lemma add_upper_bound (x y : F32.t) (F : Z) :
  F32.canonical x = true → F32.canonical y = true →
  representable F → F32.val x + F32.val y ≤ F →
  let t := F32.add x y in
  t = pinf ∨ t = ninf ∨ (F32.canonical t = true ∧ F32.val t ≤ F).
Proof.
  intros Hx Hy HF Hle t. subst t. unfold F32.add.
  destruct x as [sx|sx| |sx mx ex], y as [sy|sy| |sy my ey]; try discriminate.
  - right. right. cbn [F32.val] in Hle. destruct sx, sy; split; try reflexivity; cbn; lia.
  - right. right. cbn [SFadd]. split; [assumption|]. cbn [F32.val] in *. lia.
  - right. right. cbn [SFadd]. split; [assumption|]. cbn [F32.val] in *. lia.
  - destruct (SFadd_finite sx sy mx my ex ey) as (M & ez & Hez & -> & HM);
      [eapply canonical_exponent; eassumption..|].
    destruct (normalize_upper_bound M ez F) as [Hinf | Hfin];
      [lia | assumption | lia | | right; right; exact Hfin].
    rewrite Hinf. destruct (M <? 0); auto.
Qed.

Lemma div_pow2_upper_bound (t : F32.t) (k F : Z) :
  F32.canonical t = true → k = 0 ∨ k = 1 → representable F →
  F32.val t ≤ 2 ^ k * F →
  let a := F32.div t (S754_finite false 8388608 (k - 23)) in
  a = pinf ∨ a = ninf ∨ (F32.canonical a = true ∧ F32.val a ≤ F).
Proof.
  intros Ht Hk HF Hle a. subst a. unfold F32.div.
  destruct t as [s|s| |s m e]; try discriminate.
  - right. right. cbn [SFdiv F32.canonical F32.val] in *. split; [reflexivity|].
    destruct Hk as [-> | ->];
      [change (2 ^ 0) with 1 in Hle | change (2 ^ 1) with 2 in Hle]; lia.
  - cbn [F32.canonical F32.val] in *.
    pose proof (canonical_mantissa_inv _ _ Ht) as (He & _).
    rewrite (SFdiv_pow2 s m e k Ht Hk).
    destruct (round_upper_bound s m (e - k) F) as [Hinf | Hfin]; [lia | assumption | | |].
    + replace (e + 150) with (k + (e - k + 150)) in Hle by lia.
      rewrite Z.pow_add_r in Hle by lia.
      assert (0 < 2 ^ k) by (apply Z.pow_pos_nonneg; lia).
      destruct s; cbn [cond_Zopp] in *; nia.
    + rewrite Hinf. destruct s; auto.
    + right. right. exact Hfin.
Qed.

Lemma foldl_add_class (xs : list F32.t) :
  (∀ x, x ∈ xs → F32.canonical x = true) →
  ∀ t, no_nan_total t → no_nan_total (foldl F32.add t xs).
Proof.
  induction xs as [|y xs IH]; intros Hall t Ht; cbn [foldl]; [exact Ht|].
  assert (Hy : F32.canonical y = true) by (apply Hall, elem_of_cons; auto).
  apply IH; [intros x Hx; apply Hall, elem_of_cons; auto|].
  destruct Ht as [-> | [-> | Ht]].
  - left. destruct y; try discriminate; reflexivity.
  - right. left. destruct y; try discriminate; reflexivity.
  - apply add_class; assumption.
Qed.

Lemma nonneg_score (x : F32.t) :
  F32.valid x = true → F32.leb F32.zero x = true → nonneg_total x.
Proof.
  destruct x as [s|s| |s m e]; intros Hv Hle; try discriminate.
  - right. split; reflexivity.
  - destruct s; [discriminate | left; reflexivity].
  - destruct s; [discriminate|]. right. split.
    + cbn in Hv. unfold bounded in Hv. apply andb_prop in Hv. tauto.
    + cbn. apply Z.mul_nonneg_nonneg; [lia | apply Z.pow_nonneg; lia].
Qed.

Lemma nonneg_total_leb (t : F32.t) : nonneg_total t → F32.leb F32.zero t = true.
Proof.
  intros [-> | [Hc Hv]]; [reflexivity|].
  destruct t as [s|s| |s m e]; try discriminate; [reflexivity|].
  destruct s; [|reflexivity]. exfalso.
  pose proof (canonical_exponent _ _ _ Hc) as He.
  assert (0 < Zpos m * 2 ^ (e + 150)).
  { apply Z.mul_pos_pos; [lia | apply Z.pow_pos_nonneg; lia]. }
  cbn in Hv. lia.
Qed.

Lemma foldl_add_nonneg (xs : list F32.t) :
  (∀ x, x ∈ xs → nonneg_total x) →
  ∀ t, nonneg_total t → nonneg_total (foldl F32.add t xs).
Proof.
  induction xs as [|y xs IH]; intros Hall t Ht; cbn [foldl]; [exact Ht|].
  assert (Hy : nonneg_total y) by (apply Hall, elem_of_cons; auto).
  apply IH; [intros x Hx; apply Hall, elem_of_cons; auto|].
  destruct Ht as [-> | [Ht Hvt]], Hy as [-> | [Hy Hvy]].
  - left. reflexivity.
  - left. destruct y; try discriminate; reflexivity.
  - left. destruct t; try discriminate; reflexivity.
  - apply add_nonneg; assumption.
Qed.

Lemma div_not_nan (t : F32.t) (md : positive) (ed : Z) :
  no_nan_total t → F32.is_nan (F32.div t (S754_finite false md ed)) = false.
Proof.
  intros [-> | [-> | Ht]]; try reflexivity.
  destruct t as [s|s| |s m e]; try discriminate; [reflexivity|].
  destruct (SFdiv_finite_class s m md e ed) as [-> | [-> | (m' & e' & ->)]];
    reflexivity.
Qed.

Lemma div_nonneg (t : F32.t) (md : positive) (ed : Z) :
  nonneg_total t →
  F32.leb F32.zero (F32.div t (S754_finite false md ed)) = true.
Proof.
  intros Ht. pose proof (nonneg_total_leb t Ht) as Hle.
  destruct Ht as [-> | [Hc _]]; [reflexivity|].
  destruct t as [s|s| |s m e]; try discriminate; [reflexivity|].
  destruct s; [discriminate|].
  destruct (SFdiv_finite_class false m md e ed) as [-> | [-> | (m' & e' & ->)]];
    reflexivity.
Qed.

Lemma range_count (start end_ : Z) :
  SizeT.in_range start → SizeT.in_range end_ → start < end_ →
  ∃ md ed, F32.of_Z (end_ - start) = S754_finite false md ed.
Proof.
  unfold SizeT.in_range, SizeT.max, SizeT.modulus, SizeT.bits.
  intros Hs He Hlt. apply of_Z_count. lia.
Qed.

(** X8.  Over finite scores [score_average] never returns NaN: the result
    is finite or, when the running sum overflows, an infinity. *)
Theorem score_average_not_nan (scores : list F32.t) (start end_ : Z) :
  SizeT.in_range start → SizeT.in_range end_ →
  start < end_ → end_ ≤ Z.of_nat (length scores) →
  (∀ i x, start ≤ i < end_ → scores !! Z.to_nat i = Some x →
          F32.valid x = true ∧ F32.is_finite x = true) →
  ∃ avg, score_average scores start end_ = Ok avg ∧ F32.is_nan avg = false.
Proof.
  intros Hs He Hlt Hlen Hfin.
  rewrite score_average_slice by assumption.
  destruct (range_count start end_ Hs He Hlt) as (md & ed & ->).
  eexists. split; [reflexivity|]. apply div_not_nan.
  apply foldl_add_class; [|right; right; reflexivity].
  intros x Hx. apply slice_elem in Hx as (i & Hi & Hx); [|destruct Hs; lia].
  destruct (Hfin i x Hi Hx). apply valid_finite_canonical; assumption.
Qed.

(** X9.  Over scores that are all at least 0 (plus infinity allowed)
    [score_average] returns a value that is at least 0, never NaN. *)
Theorem score_average_nonneg (scores : list F32.t) (start end_ : Z) :
  SizeT.in_range start → SizeT.in_range end_ →
  start < end_ → end_ ≤ Z.of_nat (length scores) →
  (∀ i x, start ≤ i < end_ → scores !! Z.to_nat i = Some x →
          F32.valid x = true ∧ F32.leb F32.zero x = true) →
  ∃ avg, score_average scores start end_ = Ok avg
         ∧ F32.leb F32.zero avg = true.
Proof.
  intros Hs He Hlt Hlen Hpos.
  rewrite score_average_slice by assumption.
  destruct (range_count start end_ Hs He Hlt) as (md & ed & ->).
  eexists. split; [reflexivity|]. apply div_nonneg.
  apply foldl_add_nonneg; [|right; split; [reflexivity | cbn; lia]].
  intros x Hx. apply slice_elem in Hx as (i & Hi & Hx); [|destruct Hs; lia].
  destruct (Hpos i x Hi Hx). apply nonneg_score; assumption.
Qed.

(** *** Reads past the end *)

Lemma for_loop_out_of_bounds {S A} (v : list A) (f : S → A → S) (n : nat) :
  ∀ (start : Z) (s : S),
    0 ≤ start → (0 < n)%nat → Z.of_nat (length v) < start + Z.of_nat n →
    for_loop n start (fun i s => x ← vec_at v i; Ok (f s x)) s = Undefined.
Proof.
  induction n as [|n IH]; intros start s Hs Hn Hlen; [lia|].
  cbn [for_loop].
  destruct (Z_lt_le_dec start (Z.of_nat (length v))) as [Hin|Hout].
  - destruct (vec_at_valid v start) as (x & _ & ->); [lia|]. simpl.
    apply IH; lia.
  - unfold vec_at. destruct (Z.ltb_spec start 0); [lia|].
    rewrite lookup_ge_None_2 by lia. reflexivity.
Qed.

(** X10.  Neither helper checks the range against the vector: a non-empty
    range that ends past the vector makes both read outside it. *)
Theorem regularisation_out_of_bounds (scores : list F32.t) (start end_ : Z) :
  SizeT.in_range start → SizeT.in_range end_ →
  start < end_ → Z.of_nat (length scores) < end_ →
  score_min scores start end_ = Undefined
  ∧ score_average scores start end_ = Undefined.
Proof.
  intros Hs He Hlt Hlen. split.
  - unfold score_min, for_range.
    apply (for_loop_out_of_bounds scores keep_min); destruct Hs; lia.
  - unfold score_average. rewrite SizeT_sub_small by (assumption || lia).
    destruct (Z.ltb_spec (end_ - start) 1); [lia|].
    unfold for_range.
    rewrite (for_loop_out_of_bounds scores F32.add) by (destruct Hs; lia).
    reflexivity.
Qed.

(** X11.  Both helpers give on [[start, end)] what they give on the whole of
    the sub-vector of those scores: the position of the range in the vector
    does not matter. *)
Theorem regularisation_on_slice (scores : list F32.t) (start end_ : Z) :
  SizeT.in_range start → SizeT.in_range end_ →
  start ≤ end_ → end_ ≤ Z.of_nat (length scores) →
  score_min scores start end_
  = score_min (slice scores start end_) 0 (end_ - start)
  ∧ score_average scores start end_
    = score_average (slice scores start end_) 0 (end_ - start).
Proof.
  intros Hs He Hle Hlen.
  assert (Hs0 : 0 ≤ start) by (destruct Hs; lia).
  pose proof (slice_length scores start end_ ltac:(lia) Hlen) as Hsl.
  assert (Hsub : slice (slice scores start end_) 0 (end_ - start)
                 = slice scores start end_).
  { rewrite <- Hsl. apply slice_all. }
  split.
  - rewrite (score_min_slice scores) by lia.
    rewrite (score_min_slice (slice scores start end_)) by lia.
    rewrite Hsub. reflexivity.
  - destruct (Z.eq_dec start end_) as [-> | Hne].
    + unfold score_average, SizeT.sub. rewrite Z.sub_diag.
      change (0 - 0) with 0. change (SizeT.wrap 0 <? 1) with true. reflexivity.
    + rewrite (score_average_slice scores) by (assumption || lia).
      rewrite (score_average_slice (slice scores start end_)).
      * rewrite Hsub, Z.sub_0_r. reflexivity.
      * unfold SizeT.in_range, SizeT.max, SizeT.modulus, SizeT.bits. lia.
      * unfold SizeT.in_range, SizeT.max, SizeT.modulus, SizeT.bits in *. lia.
      * lia.
      * lia.
Qed.

(** ** The average of two scores from above *)

Lemma SFleb_ninf (x : F32.t) : F32.canonical x = true → SFleb ninf x = true.
Proof. destruct x as [s|s| |s m e]; simpl; try congruence; reflexivity. Qed.

(** from an upper bound on the running total to one on the average *)
Lemma average_upper (w total : F32.t) (k : Z) :
  F32.canonical w = true → k = 0 ∨ k = 1 →
  total = pinf ∨ total = ninf
    ∨ (F32.canonical total = true ∧ F32.val total ≤ 2 ^ k * F32.val w) →
  let a := F32.div total (S754_finite false 8388608 (k - 23)) in
  F32.leb a w = true ∨ a = pinf.
Proof.
  intros Hw Hk [-> | [-> | [Ht Hle]]] a; subst a; unfold F32.leb.
  - right. reflexivity.
  - left. apply SFleb_ninf, Hw.
  - destruct (div_pow2_upper_bound total k (F32.val w) Ht Hk
                (representable_val w Hw) Hle) as [-> | [-> | [Ha Hva]]].
    + right. reflexivity.
    + left. apply SFleb_ninf, Hw.
    + left. apply SFleb_of_val; assumption.
Qed.

Lemma add_zero_upper (x : F32.t) :
  F32.canonical x = true →
  let total := F32.add F32.zero x in
  total = pinf ∨ total = ninf
    ∨ (F32.canonical total = true ∧ F32.val total ≤ 2 ^ 0 * F32.val x).
Proof.
  intros Hx. change (2 ^ 0) with 1. rewrite Z.mul_1_l.
  apply add_upper_bound; [reflexivity | assumption | |].
  - apply representable_val, Hx.
  - simpl. lia.
Qed.

Lemma add_pair_upper (w x y : F32.t) :
  F32.canonical w = true → F32.canonical x = true → F32.canonical y = true →
  F32.val x ≤ F32.val w → F32.val y ≤ F32.val w →
  let total := F32.add (F32.add F32.zero x) y in
  total = pinf ∨ total = ninf
    ∨ (F32.canonical total = true ∧ F32.val total ≤ 2 ^ 1 * F32.val w).
Proof.
  intros Hw Hx Hy Hwx Hwy total. subst total.
  destruct (add_zero_upper x Hx) as [-> | [-> | [Hx0 Hvx0]]].
  3: change (2 ^ 0) with 1 in Hvx0; rewrite Z.mul_1_l in Hvx0.
  - left. destruct y as [s|s| |s m e]; try discriminate; reflexivity.
  - right. left. destruct y as [s|s| |s m e]; try discriminate; reflexivity.
  - change (2 ^ 1) with 2. apply add_upper_bound; try assumption.
    + apply representable_double, Hw.
    + lia.
Qed.

(** X12.  For one or two finite scores [score_average] is at most one of
    them, hence at most the larger, unless the sum overflows to plus
    infinity, which is then the average. *)
Theorem score_average_le_larger (scores : list F32.t) (start end_ : Z) :
  SizeT.in_range start → SizeT.in_range end_ →
  start < end_ ≤ start + 2 →
  end_ ≤ Z.of_nat (length scores) →
  (∀ i x, start ≤ i < end_ → scores !! Z.to_nat i = Some x →
          F32.valid x = true ∧ F32.is_finite x = true) →
  ∃ avg,
    score_average scores start end_ = Ok avg
    ∧ (avg = pinf
       ∨ ∃ i x, start ≤ i < end_ ∧ scores !! Z.to_nat i = Some x
                ∧ F32.leb avg x = true).
Proof.
  intros Hs He Hrange Hlen Hfin.
  assert (Hs0 : 0 ≤ start) by (destruct Hs; lia).
  destruct (vec_at_valid scores start) as (x & Hlx & _); [lia|].
  destruct (Hfin start x ltac:(lia) Hlx) as [Hvx Hfx].
  pose proof (valid_finite_canonical x Hvx Hfx) as Hcx.
  rewrite score_average_slice by (assumption || lia).
  eexists. split; [reflexivity|].
  destruct (Z.eq_dec end_ (start + 1)) as [-> | Hne].
  - assert (Hslice : slice scores start (start + 1) = [x]).
    { unfold slice. replace (Z.to_nat (start + 1 - start)) with 1%nat by lia.
      rewrite (drop_S _ _ _ Hlx). reflexivity. }
    rewrite Hslice. replace (start + 1 - start) with 1 by lia. rewrite of_Z_1.
    unfold float_sum. cbn [foldl].
    destruct (average_upper x (F32.add F32.zero x) 0 Hcx (or_introl eq_refl)
                (add_zero_upper x Hcx)) as [Hle | Hinf]; [right | left; exact Hinf].
    exists start, x. split; [lia|]. split; assumption.
  - assert (end_ = start + 2) as -> by lia.
    destruct (vec_at_valid scores (start + 1)) as (y & Hly & _); [lia|].
    destruct (Hfin (start + 1) y ltac:(lia) Hly) as [Hvy Hfy].
    pose proof (valid_finite_canonical y Hvy Hfy) as Hcy.
    assert (Hslice : slice scores start (start + 2) = [x; y]).
    { unfold slice. replace (Z.to_nat (start + 2 - start)) with 2%nat by lia.
      rewrite (drop_S _ _ _ Hlx).
      replace (Z.to_nat (start + 1)) with (Datatypes.S (Z.to_nat start)) in Hly by lia.
      rewrite (drop_S _ _ _ Hly). reflexivity. }
    rewrite Hslice. replace (start + 2 - start) with 2 by lia. rewrite of_Z_2.
    unfold float_sum. cbn [foldl].
    destruct (Z_le_gt_dec (F32.val x) (F32.val y)) as [Hxy | Hyx].
    + destruct (average_upper y (F32.add (F32.add F32.zero x) y) 1 Hcy
                  (or_intror eq_refl)
                  (add_pair_upper y x y Hcy Hcx Hcy Hxy ltac:(lia)))
        as [Hle | Hinf]; [right | left; exact Hinf].
      exists (start + 1), y. split; [lia|]. split; assumption.
    + destruct (average_upper x (F32.add (F32.add F32.zero x) y) 1 Hcx
                  (or_intror eq_refl)
                  (add_pair_upper x x y Hcx Hcx Hcy ltac:(lia) ltac:(lia)))
        as [Hle | Hinf]; [right | left; exact Hinf].
      exists start, x. split; [lia|]. split; assumption.
Qed.

(** ** Index strings *)

(** X13.  The string-indexed [prepareStats] uses the leading decimal number
    of the index string: white space before it is skipped, whatever follows
    the digits is ignored, and the delegate is called with the number's
    value. *)
Theorem prepareStats_str_decimal `{ScorerVirtual Self}
    (ws : string) (d : Z) (ds : list Z) (rest text : string)
    (entry : ScoreStats) (this : Self) :
  all_spaces ws = true → Forall is_digit (d :: ds) →
  no_leading_digit rest = true →
  decimal_value (d :: ds) ≤ INT_MAX →
  Scorer_prepareStats_str (ws +:+ decimal_string (d :: ds) +:+ rest) text entry this
  = prepareStats (decimal_value (d :: ds)) text entry this.
Proof.
  intros Hws Hds Hrest Hfit.
  pose proof (foldl_decimal_nonneg (d :: ds) Hds 0 ltac:(lia)) as Hpos.
  fold (decimal_value (d :: ds)) in Hpos.
  rewrite (prepareStats_str_delegates _ _ _ _ (decimal_value (d :: ds))).
  - unfold size_t_of_int, SizeT.wrap, SizeT.modulus, SizeT.bits.
    rewrite Z.mod_small; [reflexivity|]. unfold INT_MAX in Hfit. lia.
  - apply (atoi_decimal ws false EmptyString d ds rest); auto.
    cbn zeta. unfold INT_MIN. lia.
Qed.

(** X14.  A negative index string is not rejected: the value [-v] is
    converted to [size_t] and the delegate is called with index
    [2^64 - v]. *)
Theorem prepareStats_str_negative `{ScorerVirtual Self}
    (ws : string) (d : Z) (ds : list Z) (rest text : string)
    (entry : ScoreStats) (this : Self) :
  all_spaces ws = true → Forall is_digit (d :: ds) →
  no_leading_digit rest = true →
  0 < decimal_value (d :: ds) ≤ 2 ^ 31 →
  Scorer_prepareStats_str (ws +:+ "-" +:+ decimal_string (d :: ds) +:+ rest)
    text entry this
  = prepareStats (2 ^ 64 - decimal_value (d :: ds)) text entry this.
Proof.
  intros Hws Hds Hrest Hfit.
  rewrite (prepareStats_str_delegates _ _ _ _ (- decimal_value (d :: ds))).
  - unfold size_t_of_int, SizeT.wrap, SizeT.modulus, SizeT.bits.
    replace (- decimal_value (d :: ds))
      with (2 ^ 64 - decimal_value (d :: ds) + (-1) * 2 ^ 64) by lia.
    rewrite Z.mod_add by lia. rewrite Z.mod_small; [reflexivity | lia].
  - apply (atoi_decimal ws true "-" d ds rest); auto.
    cbn zeta. unfold INT_MIN, INT_MAX. lia.
Qed.

(** ** The bound table *)

(** X15.  [getReferenceSize] reads the table through the pointer at the time
    of the call: it returns the row count of whatever table is then at the
    bound address, tables at other addresses do not matter, and a table that
    no longer exists makes the call undefined. *)
Theorem getReferenceSize_follows_table (h : heap) (this : Scorer) (p : addr)
    (data : ScoreData) :
  m_score_data this = Some p →
  getReferenceSize {| score_data_at := <[p := data]> (score_data_at h) |} this
  = Ok (Z.of_nat (length data))
  ∧ (∀ q other, q ≠ p →
       getReferenceSize {| score_data_at := <[q := other]> (score_data_at h) |} this
       = getReferenceSize h this)
  ∧ getReferenceSize {| score_data_at := delete p (score_data_at h) |} this
    = Undefined.
Proof.
  intros Hp. unfold getReferenceSize. rewrite Hp. cbn [score_data_at].
  split; [|split].
  - rewrite lookup_insert_eq. reflexivity.
  - intros q other Hq. rewrite lookup_insert_ne by assumption. reflexivity.
  - rewrite lookup_delete_eq. reflexivity.
Qed.

(** ** Instances *)

Ltac size_t_in_range :=
  unfold SizeT.in_range, SizeT.max, SizeT.modulus, SizeT.bits; lia.

Ltac finite_scores_of_two :=
  let i := fresh "i" in let x := fresh "x" in
  let Hi := fresh "Hi" in let Hx := fresh "Hx" in
  intros i x Hi Hx; assert (i = 0 ∨ i = 1) as [-> | ->] by lia;
  simpl in Hx; injection Hx as <-; split; reflexivity.

Lemma score_min_lower_bound_witness :
  ∃ lo, score_min [two_thirds; S754_nan; F32.zero] 0 3 = Ok lo
    ∧ F32.is_nan lo = false
    ∧ F32.leb lo F32.max = true
    ∧ (∀ i x, 0 ≤ i < 3 → [two_thirds; S754_nan; F32.zero] !! Z.to_nat i = Some x →
              F32.is_nan x = false → F32.leb lo x = true).
Proof.
  apply (score_min_lower_bound [two_thirds; S754_nan; F32.zero] 0 3);
    [lia | simpl; lia].
Defined.

Lemma score_min_attained_witness :
  ∃ lo, score_min [two_thirds; S754_nan; F32.zero] 0 3 = Ok lo
    ∧ (lo = F32.max
       ∨ ∃ i, 0 ≤ i < 3 ∧ [two_thirds; S754_nan; F32.zero] !! Z.to_nat i = Some lo).
Proof.
  apply (score_min_attained [two_thirds; S754_nan; F32.zero] 0 3);
    [lia | simpl; lia].
Defined.

Lemma score_min_is_max_iff_witness :
  score_min [pinf; S754_nan] 0 2 = Ok F32.max
  ↔ (∀ i x, 0 ≤ i < 2 → [pinf; S754_nan] !! Z.to_nat i = Some x →
            F32.ltb x F32.max = false).
Proof.
  apply (score_min_is_max_iff [pinf; S754_nan] 0 2); [lia | simpl; lia].
Defined.

Lemma score_min_split_witness :
  ∃ lo1 lo2,
    score_min [two_thirds; F32.max; F32.zero] 0 1 = Ok lo1
    ∧ score_min [two_thirds; F32.max; F32.zero] 1 3 = Ok lo2
    ∧ score_min [two_thirds; F32.max; F32.zero] 0 3
      = Ok (if F32.ltb lo2 lo1 then lo2 else lo1).
Proof.
  apply (score_min_split [two_thirds; F32.max; F32.zero] 0 1 3);
    [lia | lia | simpl; lia].
Defined.

Lemma score_average_empty_any_witness :
  score_average [two_thirds] 3 1 = Ok F32.zero.
Proof. apply (score_average_empty_any [two_thirds] 3 1). lia. Defined.

Lemma regularisation_single_witness :
  score_min [F32.zero; two_thirds] 1 (1 + 1) = Ok two_thirds
  ∧ score_average [F32.zero; two_thirds] 1 (1 + 1) = Ok two_thirds.
Proof.
  apply (regularisation_single [F32.zero; two_thirds] 1 two_thirds);
    [size_t_in_range | size_t_in_range | reflexivity..].
Defined.

Lemma score_average_nan_witness :
  score_average [two_thirds; S754_nan; F32.zero] 0 3 = Ok S754_nan.
Proof.
  apply (score_average_nan [two_thirds; S754_nan; F32.zero] 0 3 1);
    [size_t_in_range | size_t_in_range | simpl; lia | lia | reflexivity].
Defined.

Lemma score_average_not_nan_witness :
  ∃ avg, score_average [F32.max; F32.max] 0 2 = Ok avg ∧ F32.is_nan avg = false.
Proof.
  apply (score_average_not_nan [F32.max; F32.max] 0 2);
    [size_t_in_range | size_t_in_range | lia | simpl; lia | finite_scores_of_two].
Defined.

Lemma score_average_nonneg_witness :
  ∃ avg, score_average [two_thirds; pinf] 0 2 = Ok avg
         ∧ F32.leb F32.zero avg = true.
Proof.
  apply (score_average_nonneg [two_thirds; pinf] 0 2);
    [size_t_in_range | size_t_in_range | lia | simpl; lia | finite_scores_of_two].
Defined.

Lemma regularisation_out_of_bounds_witness :
  score_min [two_thirds] 0 2 = Undefined
  ∧ score_average [two_thirds] 0 2 = Undefined.
Proof.
  apply (regularisation_out_of_bounds [two_thirds] 0 2);
    [size_t_in_range | size_t_in_range | lia | simpl; lia].
Defined.

Lemma regularisation_on_slice_witness :
  score_min [F32.zero; two_thirds; F32.max] 1 3
  = score_min (slice [F32.zero; two_thirds; F32.max] 1 3) 0 (3 - 1)
  ∧ score_average [F32.zero; two_thirds; F32.max] 1 3
    = score_average (slice [F32.zero; two_thirds; F32.max] 1 3) 0 (3 - 1).
Proof.
  apply (regularisation_on_slice [F32.zero; two_thirds; F32.max] 1 3);
    [size_t_in_range | size_t_in_range | lia | simpl; lia].
Defined.

Lemma score_average_le_larger_witness :
  ∃ avg,
    score_average [two_thirds; F32.max] 0 2 = Ok avg
    ∧ (avg = pinf
       ∨ ∃ i x, 0 ≤ i < 2 ∧ [two_thirds; F32.max] !! Z.to_nat i = Some x
                ∧ F32.leb avg x = true).
Proof.
  apply (score_average_le_larger [two_thirds; F32.max] 0 2);
    [size_t_in_range | size_t_in_range | lia | simpl; lia | finite_scores_of_two].
Defined.

Lemma prepareStats_str_decimal_witness :
  Scorer_prepareStats_str (" " +:+ decimal_string [1; 2] +:+ "th") "the cat" []
    bare_scorer
  = prepareStats (decimal_value [1; 2]) "the cat" [] bare_scorer.
Proof.
  apply (prepareStats_str_decimal (Self := Scorer) " " 1 [2] "th" "the cat" []
           bare_scorer).
  - reflexivity.
  - repeat constructor; unfold is_digit; lia.
  - reflexivity.
  - unfold decimal_value, INT_MAX. simpl. lia.
Defined.

Lemma prepareStats_str_negative_witness :
  Scorer_prepareStats_str ("" +:+ "-" +:+ decimal_string [1] +:+ "") "the cat" []
    bare_scorer
  = prepareStats (2 ^ 64 - decimal_value [1]) "the cat" [] bare_scorer.
Proof.
  apply (prepareStats_str_negative (Self := Scorer) "" 1 [] "" "the cat" []
           bare_scorer).
  - reflexivity.
  - repeat constructor; unfold is_digit; lia.
  - reflexivity.
  - unfold decimal_value. simpl. lia.
Defined.

Lemma getReferenceSize_follows_table_witness :
  getReferenceSize
    {| score_data_at := <[1%positive := [[[3; 5]]]]> (score_data_at example_heap) |}
    configured_scorer
  = Ok 1.
Proof.
  apply (getReferenceSize_follows_table example_heap configured_scorer 1%positive
           [[[3; 5]]]).
  reflexivity.
Defined.

(** The values behind two of the instances: index string [" 12th"] selects
    sentence 12, and ["-1"] the last [size_t]. *)
Example index_string_values :
  (" " +:+ decimal_string [1; 2] +:+ "th")%string = " 12th"%string
  ∧ decimal_value [1; 2] = 12
  ∧ 2 ^ 64 - decimal_value [1] = 18446744073709551615.
Proof. repeat split. Qed.
